(** * observe-sequence: a shallow embedding of [ObserveSequence.observe]

    The development follows packages/observe-sequence/observe_sequence.js:
    JavaScript values, the objects used as maps, the ordered diff the package
    borrows from minimongo, [diffArray], and the autorun body of [observe]
    with its three mutable variables.  User callbacks are recorded as a trace
    of calls. *)

From Stdlib Require Import String List ZArith Bool Arith Lia DecimalString DecimalNat Permutation.
Import ListNotations.
Open Scope string_scope.
Open Scope list_scope.

(** ** JavaScript values *)

(** The values a sequence function can return and the items a sequence can
    hold.  Numbers are the integers that JavaScript prints in plain decimal
    (no fractions, no NaN); a minimongo cursor is a reference into the store
    of cursors, compared by identity. *)
#[warnings="-register-all"] Inductive JsVal : Type :=
| JUndefined
| JNull
| JBool (b : bool)
| JNum (n : Z)
| JStr (s : string)
| JArray (elems : list JsVal)
| JObject (fields : list (string * JsVal))
| JCursor (ref : nat).

(** A document of a cursor is always an object: its list of fields. *)
Definition Doc : Type := list (string * JsVal).

Inductive JsError : Type :=
| TypeError
| Error (msg : string).

Inductive Result (A : Type) : Type :=
| Ok (a : A)
| Throw (e : JsError).
Arguments Ok {A} a.
Arguments Throw {A} e.

(** [!v] is true exactly on the falsy values. *)
Definition truthy (v : JsVal) : bool :=
  match v with
  | JUndefined | JNull => false
  | JBool b => b
  | JNum n => negb (n =? 0)%Z
  | JStr s => negb (s =? "")
  | JArray _ | JObject _ | JCursor _ => true
  end.

Fixpoint field (name : string) (fs : list (string * JsVal)) : JsVal :=
  match fs with
  | [] => JUndefined
  | (k, v) :: rest => if k =? name then v else field name rest
  end.

Fixpoint has_field (name : string) (fs : list (string * JsVal)) : bool :=
  match fs with
  | [] => false
  | (k, _) :: rest => (k =? name) || has_field name rest
  end.

(** [v._id]: a TypeError on null and undefined, the field on an object,
    undefined on every other value. *)
Definition get_id (v : JsVal) : Result JsVal :=
  match v with
  | JUndefined | JNull => Throw TypeError
  | JObject fs => Ok (field "_id" fs)
  | _ => Ok JUndefined
  end.

Definition join (sep : string) (parts : list string) : string :=
  match parts with
  | [] => ""
  | p :: rest => fold_left (fun acc q => (acc ++ sep ++ q)%string) rest p
  end.

(** The property name under which [obj[v]] stores its value. *)
Fixpoint prop_key (v : JsVal) : string :=
  match v with
  | JUndefined => "undefined"
  | JNull => "null"
  | JBool true => "true"
  | JBool false => "false"
  | JNum n => NilZero.string_of_int (Z.to_int n)
  | JStr s => s
  | JArray elems =>
      join "," (map (fun e => match e with
                              | JUndefined | JNull => ""
                              | _ => prop_key e
                              end) elems)
  | JObject _ | JCursor _ => "[object Object]"
  end.

(** ** Objects used as maps ([posOld], [posNew]) *)

(** The own properties of an object created as [{}], in the order of their
    first assignment.  JavaScript visits integer-like names first and the
    others in that order; the statements below hold for every order of the
    visit.  What the object inherits from [Object.prototype] is not part of
    these maps: see [ordinary_key]. *)
Module JsObj.

Definition t (V : Type) : Type := list (string * V).

Fixpoint set {V} (k : string) (v : V) (o : t V) : t V :=
  match o with
  | [] => [(k, v)]
  | (k', v') :: rest =>
      if k' =? k then (k', v) :: rest else (k', v') :: set k v rest
  end.

Fixpoint get {V} (k : string) (o : t V) : option V :=
  match o with
  | [] => None
  | (k', v') :: rest => if k' =? k then Some v' else get k rest
  end.

(** [_.has(o, k)] *)
Definition has {V} (k : string) (o : t V) : bool :=
  match get k o with Some _ => true | None => false end.

Definition keys {V} (o : t V) : list string := map fst o.

End JsObj.

(** ** Snapshots *)

(** An element of [lastSeqArray] / [seqArray]: [{_id, item}]. *)
Record Entry : Type := mkEntry { _id : JsVal; item : JsVal }.

Definition entry_key (e : Entry) : string := prop_key (_id e).

(** ** The ordered diff borrowed from minimongo *)

Module Diff.

(** What the diff hands to its observer. *)
Inductive Op (X : Type) : Type :=
| removed (id : X)
| addedBefore (id : X) (before : option X)
| movedBefore (id : X) (before : option X).
Arguments removed {X} id.
Arguments addedBefore {X} id before.
Arguments movedBefore {X} id before.

Section Engine.

Context {X : Type}.
(** Keys are compared the way [diffArray] indexes them: as property names. *)
Variable kf : X -> string.

Definition has_key (k : string) (l : list X) : bool :=
  existsb (fun x => kf x =? k) l.

Definition longer (a b : list X) : list X :=
  if (length b <? length a)%nat then a else b.

(** The keys left in place: a longest run of keys that stand in the same
    relative order in both sequences. *)
Fixpoint unmoved (old new : list X) : list X :=
  match old with
  | [] => []
  | x :: old' =>
      (fix scan (ys : list X) : list X :=
         match ys with
         | [] => []
         | y :: ys' =>
             if kf x =? kf y then y :: unmoved old' ys'
             else longer (unmoved old' ys) (scan ys')
         end) new
  end.

(** The first of the keys [rest] that is left in place. *)
Definition next_kept (kept rest : list X) : option X :=
  find (fun y => has_key (kf y) kept) rest.

Fixpoint walk (old kept new : list X) : list (Op X) :=
  match new with
  | [] => []
  | x :: rest =>
      let before := next_kept kept rest in
      (if negb (has_key (kf x) old) then [addedBefore x before]
       else if negb (has_key (kf x) kept) then [movedBefore x before]
       else [])
      ++ walk old kept rest
  end.

(** Modelled from the spec: [LocalCollection._diffQueryOrderedChanges] lives
    in the minimongo package, outside this package's source.  Section 4.2:
    first [removed(k)] for every old key absent from the new keys; then a walk
    over the new keys in order, emitting [addedBefore(k, b)] for a key that is
    new and [movedBefore(k, b)] for a key that is present but not among the
    correctly positioned ones, and nothing for a key left in place.  The
    before-key [b] is the next key after [k] in the new keys that is left in
    place, none when no such key follows: the keys between [k] and [b] are
    put before [b] later in the walk, so that the script, applied in emission
    order to the old keys, yields the new keys, as section 4.2 requires of it.
    The number of moves is kept minimal: the keys left in place are a longest
    common subsequence ([unmoved]); among equally long ones the choice agrees
    with the spec's Scenario 1. *)
Definition diffQueryOrderedChanges (old new : list X) : list (Op X) :=
  map removed (filter (fun x => negb (has_key (kf x) new)) old)
  ++ walk old (unmoved old new) new.

End Engine.

(** *** Applying an edit script to a key sequence *)

(** Section 4.2 has the script "applied in emission order" to the old keys.
    It does not say where a key goes when the before-key it names is not in
    the sequence; these are the readings considered.  The scripts of
    [diffQueryOrderedChanges] never name such a before-key. *)
Inductive Missing : Type := AtEnd | AtFront | Skip.

Section Apply.

Context {X : Type}.
Variable kf : X -> string.

Fixpoint insert_before (b : string) (x : X) (l : list X) : option (list X) :=
  match l with
  | [] => None
  | y :: rest =>
      if kf y =? b then Some (x :: y :: rest)
      else match insert_before b x rest with
           | Some rest' => Some (y :: rest')
           | None => None
           end
  end.

(** Put [x] directly before the key [before], or last when there is none. *)
Definition place (m : Missing) (x : X) (before : option X) (l : list X) : list X :=
  match before with
  | None => l ++ [x]
  | Some b =>
      match insert_before (kf b) x l with
      | Some l' => l'
      | None => match m with
                | AtEnd => l ++ [x]
                | AtFront => x :: l
                | Skip => l
                end
      end
  end.

Definition delete (x : X) (l : list X) : list X :=
  filter (fun y => negb (kf y =? kf x)) l.

Definition apply_op (m : Missing) (l : list X) (op : Op X) : list X :=
  match op with
  | removed x => delete x l
  | addedBefore x before => place m x before l
  | movedBefore x before => place m x before (delete x l)
  end.

Definition apply_script (m : Missing) (ops : list (Op X)) (l : list X) : list X :=
  fold_left (apply_op m) ops l.

(** Operations of one kind on one key. *)
Definition op_removed (k : string) (op : Op X) : bool :=
  match op with removed x => kf x =? k | _ => false end.

Definition op_added (k : string) (op : Op X) : bool :=
  match op with addedBefore x _ => kf x =? k | _ => false end.

Definition op_moved (k : string) (op : Op X) : bool :=
  match op with movedBefore x _ => kf x =? k | _ => false end.

End Apply.

End Diff.

(** ** The consumer's callbacks *)

(** One invocation of a callback of the [callbacks] object, arguments in
    positional order, as documented at the head of [observe]:
    [addedAt(id, item, atIndex, beforeId)], [changed(id, newItem, oldItem)],
    [removed(id, oldItem)], [movedTo(id, item, fromIndex, toIndex, beforeId)].
    An index read from a map may be undefined ([None]); a before-id may be
    null ([None]). *)
Inductive Call : Type :=
| addedAt (id item : JsVal) (atIndex : nat) (beforeId : option JsVal)
| changed (id newItem oldItem : JsVal)
| removed (id oldItem : JsVal)
| movedTo (id item : JsVal) (fromIndex : option nat) (toIndex : nat)
          (beforeId : option JsVal).

(** The calls made by a piece of code, and the exception that cut it short. *)
Definition Emit : Type := list Call * option JsError.

Definition then_ (a b : Emit) : Emit :=
  match snd a with
  | Some e => a
  | None => (fst a ++ fst b, snd b)
  end.

(** A loop that calls [f] on every element of [l] in turn, as [_.each(l, f)]
    does; the first exception ends it. *)
Fixpoint each {A : Type} (f : A -> Result (list Call)) (l : list A) : Emit :=
  match l with
  | [] => ([], None)
  | a :: rest =>
      match f a with
      | Throw e => ([], Some e)
      | Ok cs => then_ (cs, None) (each f rest)
      end
  end.

(** ** diffArray *)

(** [posNew] / [posOld]: filled by [_.each(arr, function (doc, i) { pos[doc._id] = i; })]. *)
Definition positions (arr : list Entry) : JsObj.t nat :=
  fold_left (fun pos ie => JsObj.set (entry_key (snd ie)) (fst ie) pos)
            (combine (seq 0 (length arr)) arr) [].

(** [arr[pos[id]].item]: a TypeError when the index is undefined or out of
    range, since [.item] is then read from undefined. *)
Definition item_at (arr : list Entry) (i : option nat) : Result (nat * JsVal) :=
  match i with
  | None => Throw TypeError
  | Some n =>
      match nth_error arr n with
      | Some e => Ok (n, item e)
      | None => Throw TypeError
      end
  end.

Section DiffArray.

Variables lastSeqArray seqArray : list Entry.

Let posNew := positions seqArray.
Let posOld := positions lastSeqArray.

(** The observer handed to the diff (source lines 159-169). *)
Definition observer (op : Diff.Op JsVal) : Result (list Call) :=
  match op with
  | Diff.addedBefore id before =>
      match item_at seqArray (JsObj.get (prop_key id) posNew) with
      | Ok (i, it) => Ok [addedAt id it i before]
      | Throw e => Throw e
      end
  | Diff.movedBefore id before =>
      match item_at seqArray (JsObj.get (prop_key id) posNew) with
      | Ok (i, it) => Ok [movedTo id it (JsObj.get (prop_key id) posOld) i before]
      | Throw e => Throw e
      end
  | Diff.removed id =>
      match item_at lastSeqArray (JsObj.get (prop_key id) posOld) with
      | Ok (_, it) => Ok [removed id it]
      | Throw e => Throw e
      end
  end.

(** The body of [_.each(posNew, function (pos, id) ...)] (lines 171-174):
    [callbacks.changed(id, lastSeqArray[posOld[id]].item, seqArray[pos].item)]. *)
Definition fire_changed (entry : string * nat) : Result (list Call) :=
  let '(id, pos) := entry in
  if JsObj.has id posOld then
    match item_at lastSeqArray (JsObj.get id posOld) with
    | Throw e => Throw e
    | Ok (_, oldIt) =>
        match item_at seqArray (Some pos) with
        | Throw e => Throw e
        | Ok (_, newIt) => Ok [changed (JStr id) oldIt newIt]
        end
    end
  else Ok [].

(** [diffArray(lastSeqArray, seqArray, callbacks)].  The package minimongo is
    taken to be loaded, as the first line of the function requires. *)
Definition diffArray : Emit :=
  let oldIdObjects := map _id lastSeqArray in
  let newIdObjects := map _id seqArray in
  then_ (each observer (Diff.diffQueryOrderedChanges prop_key oldIdObjects newIdObjects))
        (each fire_changed posNew).

End DiffArray.

(** ** Cursors and their observers *)

(** A minimongo cursor: the documents of its result set and its read
    position. *)
Record Cursor : Type := mkCursor { docs : list Doc; cursor_pos : nat }.

(** An observe handle returned by [cursor.observe]; [h_initial] is the
    [initial] variable captured by the callbacks given to that call. *)
Record Handle : Type :=
  mkHandle { h_cursor : nat; h_initial : bool; h_stopped : bool }.

(** Everything outside the session that the session reads or changes: the
    cursors (by reference), the observe handles it has created, and how many
    times [Random.id()] has been called. *)
Record World : Type :=
  mkWorld { cursors : list Cursor; handles : list Handle; random_calls : nat }.

Fixpoint update {A : Type} (i : nat) (f : A -> A) (l : list A) : list A :=
  match l, i with
  | [], _ => []
  | x :: rest, O => f x :: rest
  | x :: rest, S j => x :: update j f rest
  end.

Definition cursor_at (c : nat) (w : World) : Cursor :=
  nth c (cursors w) (mkCursor [] 0).

Definition with_cursors (w : World) (cs : list Cursor) : World :=
  mkWorld cs (handles w) (random_calls w).

Definition with_handles (w : World) (hs : list Handle) : World :=
  mkWorld (cursors w) hs (random_calls w).

(** Modelled from the spec: the live collection is minimongo's cursor, outside
    this package's source.  It keeps a read position; [rewind] puts the read
    position back at the start ("so that we can fetch"). *)
Definition rewind (c : nat) (w : World) : World :=
  with_cursors w (update c (fun cu => mkCursor (docs cu) 0) (cursors w)).

(** Modelled from the spec: [fetch] traverses the result set from the read
    position to its end and leaves the read position there. *)
Definition fetch (c : nat) (w : World) : list Doc * World :=
  let cu := cursor_at c w in
  (skipn (cursor_pos cu) (docs cu),
   with_cursors w (update c (fun cu => mkCursor (docs cu) (length (docs cu))) (cursors w))).

(** What the native feed of a cursor announces. *)
Inductive NativeEv : Type :=
| NAddedAt (document : Doc) (atIndex : nat) (before : option JsVal)
| NChanged (newDocument oldDocument : Doc)
| NRemoved (oldDocument : Doc)
| NMovedTo (document : Doc) (fromIndex toIndex : nat) (before : option JsVal).

(** The callbacks [observe] gives to [cursor.observe] (lines 97-111);
    [initial] is the variable they close over. *)
Definition native_callbacks (initial : bool) (ev : NativeEv) : list Call :=
  match ev with
  | NAddedAt document atIndex before =>
      if negb initial
      then [addedAt (field "_id" document) (JObject document) atIndex before]
      else []
  | NChanged newDocument oldDocument =>
      [changed (field "_id" newDocument) (JObject newDocument) (JObject oldDocument)]
  | NRemoved oldDocument =>
      [removed (field "_id" oldDocument) (JObject oldDocument)]
  | NMovedTo document fromIndex toIndex before =>
      [movedTo (field "_id" document) (JObject document) (Some fromIndex) toIndex before]
  end.

Fixpoint initial_adds (i : nat) (ds : list Doc) : list NativeEv :=
  match ds with
  | [] => []
  | d :: rest => NAddedAt d i None :: initial_adds (S i) rest
  end.

(** Modelled from the spec: [cursor.observe(nativeCallbacks)], of minimongo.
    It registers a new handle and, before it returns, announces every document
    the cursor already holds through the added-at-index callback (the feed's
    own initial notification, Scenario 4).  The handle then delivers until it
    is stopped, by its [stop] or by the computation inside which it was
    created ([stop_handles]).  The result: the calls the given callbacks made,
    the new handle and the new world. *)
Definition cursor_observe (c : nat) (initial : bool) (w : World)
  : list Call * nat * World :=
  let h := length (handles w) in
  let w' := with_handles w (handles w ++ [mkHandle c initial false]) in
  (flat_map (native_callbacks initial) (initial_adds 0 (docs (cursor_at c w))), h, w').

(** Modelled from the spec: [handle.stop()] of an observe handle; a stopped
    handle delivers nothing further. *)
Definition handle_stop (h : nat) (w : World) : World :=
  with_handles w (update h (fun x => mkHandle (h_cursor x) (h_initial x) true) (handles w)).

(** Modelled from the spec: line 97 calls [cursor.observe] inside the function
    given to [Deps.autorun], and a handle that minimongo creates while a
    computation runs belongs to that computation: it is stopped when the
    computation is invalidated, before the function runs again, and when the
    computation is stopped (section 4.5: [stop] "detaches any active live
    subscription").  Every handle of the world was created by a run of the
    session's one computation. *)
Definition stop_handles (w : World) : World :=
  with_handles w (map (fun x => mkHandle (h_cursor x) (h_initial x) true) (handles w)).

Definition set_initial (h : nat) (b : bool) (w : World) : World :=
  with_handles w (update h (fun x => mkHandle (h_cursor x) b (h_stopped x)) (handles w)).

(** A native event on cursor [c] reaches the callbacks of every handle that
    observes [c] and has not been stopped. *)
Definition deliver (c : nat) (ev : NativeEv) (w : World) : list Call :=
  flat_map (fun h => if (h_cursor h =? c)%nat && negb (h_stopped h)
                     then native_callbacks (h_initial h) ev else [])
           (handles w).

(** ** The observation session *)

(** The variables of one call of [observe]: [lastSeq], [activeObserveHandle],
    [lastSeqArray] (which line 120 can leave undefined, [None]) and whether
    [computation.stop()] has been called. *)
Record Session : Type :=
  mkSession { lastSeq : JsVal;
              activeObserveHandle : option nat;
              lastSeqArray : option (list Entry);
              computation_stopped : bool }.

Definition initial_session : Session := mkSession JNull None (Some []) false.

(** The outcome of one execution of the autorun function. *)
Record Run : Type :=
  mkRun { calls : list Call; thrown : option JsError;
          world : World; session : Session }.

Definition entries_of_docs (ds : list Doc) : list Entry :=
  map (fun doc => mkEntry (field "_id" doc) (JObject doc)) ds.

(** [_.each] and the diff treat an undefined array as an empty one. *)
Definition or_empty (a : option (list Entry)) : list Entry :=
  match a with Some l => l | None => [] end.

(** [lastSeq !== cursor] is false exactly when both are the same cursor. *)
Definition same_cursor (v : JsVal) (c : nat) : bool :=
  match v with
  | JCursor c' => (c' =? c)%nat
  | _ => false
  end.

Definition unrecognized : JsError :=
  Error "Not a recognized sequence type. Currently only arrays, cursors or falsey values accepted.".

Section Observe.

(** [Random.id()], of the random package: its n-th call returns
    [Random_id n]. *)
Variable Random_id : nat -> string.

(** Lines 68-70: [{ _id: doc._id || Random.id(), item: doc }] for every
    element, from the n-th call of [Random.id()] on. *)
Fixpoint entries_of_array (n : nat) (elems : list JsVal) : Result (list Entry) * nat :=
  match elems with
  | [] => (Ok [], n)
  | doc :: rest =>
      match get_id doc with
      | Throw e => (Throw e, n)
      | Ok v =>
          let '(id, n1) := if truthy v then (v, n) else (JStr (Random_id n), S n) in
          match entries_of_array n1 rest with
          | (Ok es, n2) => (Ok (mkEntry id doc :: es), n2)
          | (Throw e, n2) => (Throw e, n2)
          end
      end
  end.

(** Lines 51-59: when the last sequence was a cursor, fetch it again. *)
Definition refetch (w : World) (s : Session) : World * Session :=
  match lastSeq s with
  | JCursor c =>
      let w1 := rewind c w in
      let '(ds, w2) := fetch c w1 in
      let w3 := rewind c w2 in
      (w3, mkSession (lastSeq s) (activeObserveHandle s)
                     (Some (entries_of_docs ds)) (computation_stopped s))
  | _ => (w, s)
  end.

(** Lines 119-120, reached when nothing was thrown. *)
Definition commit (seq : JsVal) (seqArray : option (list Entry)) (s : Session) : Session :=
  mkSession seq (activeObserveHandle s) seqArray (computation_stopped s).

(** A branch that ends with [diffArray(lastSeqArray, seqArray, callbacks)]. *)
Definition diff_and_commit (seq : JsVal) (seqArray : list Entry)
           (w : World) (s : Session) : Run :=
  let em := diffArray (or_empty (lastSeqArray s)) seqArray in
  match snd em with
  | Some e => mkRun (fst em) (Some e) w s
  | None => mkRun (fst em) None w (commit seq (Some seqArray) s)
  end.

(** Lines 74-113: a cursor that is not the last sequence. *)
Definition attach (c : nat) (w : World) (s : Session) : Run :=
  let w1 := rewind c w in
  let '(ds, w2) := fetch c w1 in
  let w3 := rewind c w2 in
  let seqArray := entries_of_docs ds in
  let em := diffArray (or_empty (lastSeqArray s)) seqArray in
  match snd em with
  | Some e => mkRun (fst em) (Some e) w3 s
  | None =>
      let w4 := match activeObserveHandle s with
                | Some h => handle_stop h w3
                | None => w3
                end in
      let initial := true in
      let '(cs, h, w5) := cursor_observe c initial w4 in
      let w6 := set_initial h false w5 in
      mkRun (fst em ++ cs) None w6
            (mkSession (JCursor c) (Some h) (Some seqArray) (computation_stopped s))
  end.

(** The function given to [Deps.autorun] (lines 44-121), [seq] being what
    [sequenceFunc()] returns in this execution. *)
Definition autorun_body (seq : JsVal) (w0 : World) (s0 : Session) : Run :=
  let '(w, s) := refetch w0 s0 in
  if negb (truthy seq) then diff_and_commit seq [] w s
  else
    match seq with
    | JArray elems =>
        match entries_of_array (random_calls w) elems with
        | (Throw e, n) => mkRun [] (Some e) (mkWorld (cursors w) (handles w) n) s
        | (Ok seqArray, n) =>
            diff_and_commit seq seqArray (mkWorld (cursors w) (handles w) n) s
        end
    | JCursor c =>
        if same_cursor (lastSeq s) c
        then mkRun [] None w (commit seq None s)
        else attach c w s
    | _ => mkRun [] (Some unrecognized) w s
    end.

(** What can happen to a session once [observe] has returned. *)
Inductive Trigger : Type :=
| Invalidate (seq : JsVal)
| Native (c : nat) (newDocs : list Doc) (ev : NativeEv)
| Stop.

Definition set_docs (c : nat) (ds : list Doc) (w : World) : World :=
  with_cursors w (update c (fun cu => mkCursor ds (cursor_pos cu)) (cursors w)).

(** Modelled from the spec: [Deps.autorun] runs the function at once and
    again at every invalidation until [computation.stop()] is called;
    [Deps.nonreactive] only runs its argument.  [Invalidate seq] is a reactive
    trigger, the invalidation of the computation followed by the execution in
    which [sequenceFunc()] returns [seq]; [Native c ds ev] is a change of the
    collection behind cursor [c], which then holds [ds] and announces [ev];
    [Stop] is a call of the returned [stop] (lines 124-126).  Invalidating
    and stopping the computation stop the handles created inside it. *)
Definition step (t : Trigger) (w : World) (s : Session) : Run :=
  match t with
  | Invalidate seq =>
      if computation_stopped s then mkRun [] None w s
      else autorun_body seq (stop_handles w) s
  | Native c ds ev =>
      let w' := set_docs c ds w in
      mkRun (deliver c ev w') None w' s
  | Stop =>
      mkRun [] None (stop_handles w)
            (mkSession (lastSeq s) (activeObserveHandle s) (lastSeqArray s) true)
  end.

(** [observe(sequenceFunc, callbacks)]: the first execution. *)
Definition observe (seq : JsVal) (w : World) : Run :=
  autorun_body seq w initial_session.

Fixpoint steps (ts : list Trigger) (w : World) (s : Session) : list Call * World * Session :=
  match ts with
  | [] => ([], w, s)
  | t :: rest =>
      let r := step t w s in
      let '(cs, w', s') := steps rest (world r) (session r) in
      (calls r ++ cs, w', s')
  end.

End Observe.

(** ** Counting calls by kind and key *)

Definition is_addedAt (k : string) (c : Call) : bool :=
  match c with addedAt id _ _ _ => prop_key id =? k | _ => false end.

Definition is_changed (k : string) (c : Call) : bool :=
  match c with changed id _ _ => prop_key id =? k | _ => false end.

Definition is_removed (k : string) (c : Call) : bool :=
  match c with removed id _ => prop_key id =? k | _ => false end.

Definition is_movedTo (k : string) (c : Call) : bool :=
  match c with movedTo id _ _ _ _ => prop_key id =? k | _ => false end.

Definition count (p : Call -> bool) (cs : list Call) : nat := length (filter p cs).

Definition has_entry (k : string) (arr : list Entry) : bool :=
  existsb (fun e => entry_key e =? k) arr.

Definition one_if (b : bool) : nat := if b then 1 else 0.


(** ** Predicates used in the statements *)

(** A call of [changed] that passes the key, then the item of an entry of the
    old snapshot [A], then the item of an entry of the new snapshot [B]. *)
Definition changed_old_new (A B : list Entry) (c : Call) : Prop :=
  exists k eo en,
    c = changed (JStr k) (item eo) (item en)
    /\ In eo A /\ entry_key eo = k /\ In en B /\ entry_key en = k.

(** The element makes line 69 call [Random.id()]: its [_id] is falsy. *)
Definition wants_random (doc : JsVal) : bool :=
  match get_id doc with
  | Ok v => negb (truthy v)
  | Throw _ => false
  end.

(** The property names under which an object created as [{}] is not a plain
    map: the names it inherits from [Object.prototype] in one engine or
    another (an index assigned to [__proto__] is not stored, and an inherited
    name reads as defined without having been assigned), and [length], which
    makes [_.each] walk the object as an array.  [posOld] and [posNew] are
    such objects; the statements about them are made for the other keys. *)
Definition reserved_names : list string :=
  ["__proto__"; "constructor"; "hasOwnProperty"; "isPrototypeOf";
   "propertyIsEnumerable"; "toLocaleString"; "toString"; "valueOf";
   "__defineGetter__"; "__defineSetter__"; "__lookupGetter__";
   "__lookupSetter__"; "toSource"; "watch"; "unwatch"; "length"].

Definition ordinary_key (k : string) : bool :=
  negb (existsb (String.eqb k) reserved_names).

(** Every key of the snapshot is an ordinary property name. *)
Definition ordinary_keys (arr : list Entry) : Prop :=
  Forall (fun e => ordinary_key (entry_key e) = true) arr.

(** Every handle has been stopped. *)
Definition all_stopped (w : World) : Prop :=
  forall i h, nth_error (handles w) i = Some h -> h_stopped h = true.

(** No handle other than [activeObserveHandle] is still delivering. *)
Definition one_active (w : World) (s : Session) : Prop :=
  forall i h, nth_error (handles w) i = Some h -> h_stopped h = false ->
              activeObserveHandle s = Some i.

(** ** Predicates for the properties of [diffArray] and of the session *)

(** The index of the last entry of [arr] whose key is [k], counting from [i]. *)
Fixpoint last_index_from (i : nat) (k : string) (arr : list Entry) : option nat :=
  match arr with
  | [] => None
  | e :: rest =>
      match last_index_from (S i) k rest with
      | Some j => Some j
      | None => if entry_key e =? k then Some i else None
      end
  end.

Definition last_index (k : string) (arr : list Entry) : option nat :=
  last_index_from 0 k arr.

(** [it] is the item of the last entry of [arr] under the key [k], and that
    entry stands at index [i]. *)
Definition entry_at (arr : list Entry) (k : string) (i : nat) (it : JsVal) : Prop :=
  last_index k arr = Some i
  /\ exists e, nth_error arr i = Some e /\ entry_key e = k /\ item e = it.

(** The arguments of a call are read from the old snapshot [A] and the new
    snapshot [B]: positions and items of [addedAt] and [movedTo] from [B], the
    item of [removed] and the from-index of [movedTo] from [A], and the two
    items of [changed] from [A] first and [B] second. *)
Definition call_from_snapshots (A B : list Entry) (c : Call) : Prop :=
  match c with
  | addedAt id it i _ => entry_at B (prop_key id) i it
  | movedTo id it from i _ =>
      entry_at B (prop_key id) i it /\ from = last_index (prop_key id) A
  | removed id it => exists j, entry_at A (prop_key id) j it
  | changed id second third =>
      exists k j i, id = JStr k /\ entry_at A k j second /\ entry_at B k i third
  end.

(** The four callbacks. *)
Inductive Kind : Type := KAddedAt | KChanged | KRemoved | KMovedTo.

Definition kind (c : Call) : Kind :=
  match c with
  | addedAt _ _ _ _ => KAddedAt
  | changed _ _ _ => KChanged
  | removed _ _ => KRemoved
  | movedTo _ _ _ _ _ => KMovedTo
  end.

Definition op_kind {X : Type} (op : Diff.Op X) : Kind :=
  match op with
  | Diff.removed _ => KRemoved
  | Diff.addedBefore _ _ => KAddedAt
  | Diff.movedBefore _ _ => KMovedTo
  end.

Definition is_changed_call (c : Call) : bool :=
  match c with changed _ _ _ => true | _ => false end.

(** [lastSeqArray] is undefined only while [lastSeq] is a cursor. *)
Definition baseline_defined (s : Session) : Prop :=
  lastSeqArray s = None -> exists c, lastSeq s = JCursor c.

(** [s] is [l] with some elements left out. *)
Inductive subseq {X : Type} : list X -> list X -> Prop :=
| subseq_nil : subseq [] []
| subseq_skip (x : X) (s l : list X) : subseq s l -> subseq s (x :: l)
| subseq_take (x : X) (s l : list X) : subseq s l -> subseq (x :: s) (x :: l).

(** ** Sample data for the evaluated scenarios *)

(** A generator standing for [Random.id()]: its n-th call returns "id" followed
    by n in decimal. *)
Definition sample_id (n : nat) : string :=
  ("id" ++ NilZero.string_of_uint (Nat.to_uint n))%string.

Definition doc_a : Doc := [("_id", JStr "a"); ("title", JStr "first")].
Definition doc_b : Doc := [("_id", JStr "b"); ("title", JStr "second")].

(** One cursor holding two documents, of which its owner has read one. *)
Definition sample_world : World := mkWorld [mkCursor [doc_a; doc_b] 1] [] 0.

(** Two snapshots with the same keys and other items. *)
Definition sample_old : list Entry :=
  [mkEntry (JStr "A") (JNum 1); mkEntry (JStr "B") (JNum 2)].

Definition sample_new : list Entry :=
  [mkEntry (JStr "A") (JNum 10); mkEntry (JStr "B") (JNum 20)].

(** * Scenarios of the spec, evaluated *)

Example scenario1 :
  Diff.diffQueryOrderedChanges (fun s => s) ["A"; "B"; "C"] ["B"; "A"; "D"]
  = [Diff.removed "C"; Diff.movedBefore "B" (Some "A"); Diff.addedBefore "D" None].
Proof. reflexivity. Qed.

Example diff_idempotent_on_sample :
  Diff.diffQueryOrderedChanges (fun s => s) ["A"; "B"; "C"] ["A"; "B"; "C"] = [].
Proof. reflexivity. Qed.

Example diffArray_scenario2 :
  diffArray [] [mkEntry (JStr "X") (JNum 7)]
  = ([addedAt (JStr "X") (JNum 7) 0 None], None).
Proof. reflexivity. Qed.

Example observe_scenario3 :
  let older := JObject [("_id", JStr "x"); ("n", JNum 1)] in
  let newer := [("_id", JStr "x"); ("n", JNum 2)] in
  let w := mkWorld [mkCursor [newer] 0] [] 0 in
  let r0 := observe sample_id (JArray [older]) w in
  let r1 := step sample_id (Invalidate (JCursor 0)) (world r0) (session r0) in
  calls r0 = [addedAt (JStr "x") older 0 None]
  /\ calls r1 = [changed (JStr "x") older (JObject newer)].
Proof. vm_compute. auto. Qed.

Example observe_scenario4 :
  calls (observe sample_id (JCursor 0) sample_world)
  = [addedAt (JStr "a") (JObject doc_a) 0 None;
     addedAt (JStr "b") (JObject doc_b) 1 None].
Proof. reflexivity. Qed.

(** A cursor is observed; a document removed from its collection reaches
    [removed].  After [stop] the handle is stopped and the same removal
    reaches nothing. *)
Example stop_detaches_the_cursor :
  let r0 := observe sample_id (JCursor 0) sample_world in
  let gone := Native 0 [doc_a] (NRemoved doc_b) in
  let r1 := step sample_id Stop (world r0) (session r0) in
  calls (step sample_id gone (world r0) (session r0)) = [removed (JStr "b") (JObject doc_b)]
  /\ handles (world r0) = [mkHandle 0 false false]
  /\ handles (world r1) = [mkHandle 0 false true]
  /\ calls (step sample_id gone (world r1) (session r1)) = [].
Proof. vm_compute. auto. Qed.

(** A cursor is observed; the sequence then becomes the empty list.  The run
    removes the two documents, the handle of the cursor is stopped, and a
    later removal from the collection reaches nothing. *)
Example list_run_detaches_the_cursor :
  let r0 := observe sample_id (JCursor 0) sample_world in
  let r1 := step sample_id (Invalidate (JArray [])) (world r0) (session r0) in
  calls r1 = [removed (JStr "a") (JObject doc_a); removed (JStr "b") (JObject doc_b)]
  /\ handles (world r1) = [mkHandle 0 false true]
  /\ calls (step sample_id (Native 0 [doc_a] (NRemoved doc_b)) (world r1) (session r1)) = [].
Proof. vm_compute. auto. Qed.

(** The keys A, B become A, X, Y, B: both new keys go before B, the next key
    left in place, X first. *)
Example diff_names_the_next_key_in_place :
  Diff.diffQueryOrderedChanges (fun s => s) ["A"; "B"] ["A"; "X"; "Y"; "B"]
  = [Diff.addedBefore "X" (Some "B"); Diff.addedBefore "Y" (Some "B")].
Proof. reflexivity. Qed.

(** * Facts about the store *)

Lemma nth_update {A : Type} (f : A -> A) (d : A) (l : list A) (i : nat) :
  (i < length l)%nat -> nth i (update i f l) d = f (nth i l d).
Proof.
  revert i; induction l as [|x l IH]; intros [|i] H; simpl in *; try lia; auto.
  apply IH; lia.
Qed.

Lemma nth_update_other {A : Type} (f : A -> A) (d : A) (l : list A) (i j : nat) :
  i <> j -> nth j (update i f l) d = nth j l d.
Proof.
  revert i j; induction l as [|x l IH]; intros [|i] [|j] H; simpl; auto; try congruence.
Qed.

Lemma update_length {A : Type} (f : A -> A) (l : list A) (i : nat) :
  length (update i f l) = length l.
Proof.
  revert i; induction l as [|x l IH]; intros [|i]; simpl; auto.
Qed.

Lemma update_beyond {A : Type} (f : A -> A) (l : list A) (i : nat) :
  (length l <= i)%nat -> update i f l = l.
Proof.
  revert i; induction l as [|x l IH]; intros [|i] H; simpl in *; auto; try lia.
  f_equal; apply IH; lia.
Qed.

Lemma cursor_at_rewind (c : nat) (w : World) :
  cursor_at c (rewind c w) = mkCursor (docs (cursor_at c w)) 0.
Proof.
  unfold cursor_at, rewind; simpl.
  destruct (Nat.lt_ge_cases c (length (cursors w))) as [H|H].
  - now rewrite nth_update.
  - rewrite update_beyond by exact H. now rewrite nth_overflow.
Qed.

Lemma cursor_at_rewind_other (c c' : nat) (w : World) :
  c <> c' -> cursor_at c' (rewind c w) = cursor_at c' w.
Proof. intros H; unfold cursor_at, rewind; simpl. now apply nth_update_other. Qed.

Lemma fetch_rewound (c : nat) (w : World) :
  fst (fetch c (rewind c w)) = docs (cursor_at c w).
Proof. unfold fetch. rewrite cursor_at_rewind. reflexivity. Qed.

Lemma cursor_at_fetch_other (c c' : nat) (w : World) :
  c <> c' -> cursor_at c' (snd (fetch c w)) = cursor_at c' w.
Proof. intros H; unfold cursor_at, fetch; simpl. now apply nth_update_other. Qed.

Lemma handles_rewind (c : nat) (w : World) : handles (rewind c w) = handles w.
Proof. reflexivity. Qed.

Lemma handles_fetch (c : nat) (w : World) : handles (snd (fetch c w)) = handles w.
Proof. reflexivity. Qed.

(** The read position after the three steps rewind, fetch, rewind. *)
Lemma traverse_pos (c : nat) (w : World) :
  cursor_pos (cursor_at c (rewind c (snd (fetch c (rewind c w))))) = 0.
Proof. now rewrite cursor_at_rewind. Qed.

Lemma traverse_other (c c' : nat) (w : World) :
  c <> c' ->
  cursor_at c' (rewind c (snd (fetch c (rewind c w)))) = cursor_at c' w.
Proof.
  intros H. now rewrite cursor_at_rewind_other, cursor_at_fetch_other, cursor_at_rewind_other.
Qed.

Lemma handles_traverse (c : nat) (w : World) :
  handles (rewind c (snd (fetch c (rewind c w)))) = handles w.
Proof. reflexivity. Qed.

Lemma refetch_handles (w : World) (s : Session) :
  handles (fst (refetch w s)) = handles w.
Proof. unfold refetch. destruct (lastSeq s); reflexivity. Qed.

Lemma refetch_session (w : World) (s : Session) :
  lastSeq (snd (refetch w s)) = lastSeq s
  /\ activeObserveHandle (snd (refetch w s)) = activeObserveHandle s
  /\ computation_stopped (snd (refetch w s)) = computation_stopped s.
Proof. unfold refetch. destruct (lastSeq s) eqn:E; simpl; auto. Qed.

(** Stopped handles *)

Lemma all_stopped_stop_handles (w : World) : all_stopped (stop_handles w).
Proof.
  intros i h H. unfold stop_handles in H; simpl in H.
  rewrite nth_error_map in H.
  destruct (nth_error (handles w) i); inversion H; reflexivity.
Qed.

Lemma stop_handles_twice (w : World) :
  all_stopped w -> stop_handles w = w.
Proof.
  unfold all_stopped, stop_handles, with_handles. destruct w as [cs hs n]; simpl.
  intros H. f_equal.
  induction hs as [|h hs IH]; simpl; auto.
  rewrite IH by (intros i h' E; apply (H (S i) h' E)).
  pose proof (H 0%nat h eq_refl) as E. destruct h as [a b st]; simpl in *.
  now subst st.
Qed.

Lemma deliver_all_stopped (c : nat) (ds : list Doc) (ev : NativeEv) (w : World) :
  all_stopped w -> deliver c ev (set_docs c ds w) = [].
Proof.
  unfold all_stopped, deliver, set_docs, with_cursors; simpl.
  induction (handles w) as [|h hs IH]; intros H; simpl; auto.
  rewrite (H 0%nat h eq_refl), andb_false_r; simpl.
  apply IH. intros i h' E. apply (H (S i) h' E).
Qed.

(** * The autorun function *)

Section Runs.

Variable Random_id : nat -> string.

Lemma autorun_handles_kept (seq : JsVal) (w : World) (s : Session) :
  (forall c, seq <> JCursor c) ->
  handles (world (autorun_body Random_id seq w s)) = handles w
  /\ activeObserveHandle (session (autorun_body Random_id seq w s)) = activeObserveHandle s.
Proof.
  intros Hc. unfold autorun_body.
  pose proof (refetch_handles w s) as Hh.
  destruct (refetch_session w s) as (_ & Ha & _).
  destruct (refetch w s) as [w1 s1]; simpl in *.
  assert (Hd : forall q arr w2, handles w2 = handles w ->
            handles (world (diff_and_commit q arr w2 s1)) = handles w
            /\ activeObserveHandle (session (diff_and_commit q arr w2 s1)) = activeObserveHandle s).
  { intros q arr w2 E. unfold diff_and_commit.
    destruct (snd (diffArray _ arr)); simpl; auto. }
  destruct (truthy seq); simpl.
  - destruct seq; simpl; auto.
    + destruct (entries_of_array Random_id (random_calls w1) elems) as [[arr|e] n]; simpl; auto.
    + now elim (Hc ref).
  - now apply Hd.
Qed.

(** C8: a sequence value that is truthy, not an array and not a cursor makes
    the run throw the "not a recognized sequence type" error, and the run
    calls no callback at all. *)
Theorem unsupported_sequence_throws (seq : JsVal) (w : World) (s : Session) :
  truthy seq = true ->
  (forall elems, seq <> JArray elems) ->
  (forall c, seq <> JCursor c) ->
  computation_stopped s = false ->
  calls (step Random_id (Invalidate seq) w s) = []
  /\ thrown (step Random_id (Invalidate seq) w s) = Some unrecognized
  /\ calls (observe Random_id seq w) = []
  /\ thrown (observe Random_id seq w) = Some unrecognized.
Proof.
  intros Ht Ha Hc Hs.
  assert (G : forall w' s', calls (autorun_body Random_id seq w' s') = []
                            /\ thrown (autorun_body Random_id seq w' s') = Some unrecognized).
  { intros w' s'. unfold autorun_body. destruct (refetch w' s') as [w1 s1].
    rewrite Ht; simpl.
    destruct seq; simpl in *; try discriminate; auto.
    - now elim (Ha elems).
    - now elim (Hc ref). }
  unfold observe; simpl. rewrite Hs.
  destruct (G (stop_handles w) s), (G w initial_session). auto.
Qed.

(** C10: a recomputation that yields the cursor of the previous run calls no
    callback, creates no observe handle and keeps [activeObserveHandle]; but
    the invalidation that led to it has stopped the handle of the previous
    run, so that after it no native event of any cursor reaches a callback. *)
Theorem same_cursor_rerun_ends_delivery (c : nat) (w : World) (s : Session) :
  lastSeq s = JCursor c ->
  computation_stopped s = false ->
  let r := step Random_id (Invalidate (JCursor c)) w s in
  calls r = [] /\ thrown r = None
  /\ length (handles (world r)) = length (handles w)
  /\ activeObserveHandle (session r) = activeObserveHandle s
  /\ lastSeq (session r) = JCursor c
  /\ all_stopped (world r)
  /\ forall c' ds ev,
       calls (step Random_id (Native c' ds ev) (world r) (session r)) = [].
Proof.
  intros Hl Hs r. subst r. simpl. rewrite Hs.
  unfold autorun_body.
  pose proof (refetch_handles (stop_handles w) s) as Hh.
  destruct (refetch_session (stop_handles w) s) as (Hl' & Ha & _).
  destruct (refetch (stop_handles w) s) as [w1 s1]; simpl in *.
  rewrite Hl' , Hl. simpl. rewrite Nat.eqb_refl. simpl.
  assert (St : all_stopped w1).
  { unfold all_stopped. rewrite Hh. apply all_stopped_stop_handles. }
  repeat split; auto.
  - rewrite Hh. unfold stop_handles; simpl. now rewrite length_map.
  - intros c' ds ev. now apply deliver_all_stopped.
Qed.

End Runs.

(** * Facts about objects used as maps *)

Module JsObjFacts.
Import JsObj.

Lemma get_set {V : Type} (k k' : string) (v : V) (o : t V) :
  get k (set k' v o) = if k' =? k then Some v else get k o.
Proof.
  induction o as [|[k0 v0] o IH]; simpl.
  - reflexivity.
  - destruct (k0 =? k') eqn:E0; simpl.
    + apply String.eqb_eq in E0; subst k0.
      destruct (k' =? k); reflexivity.
    + destruct (k0 =? k) eqn:E1.
      * apply String.eqb_eq in E1; subst k0. now rewrite String.eqb_sym, E0.
      * exact IH.
Qed.

Lemma get_in_keys {V : Type} (k : string) (o : t V) :
  get k o <> None <-> In k (keys o).
Proof.
  induction o as [|[k0 v0] o IH]; simpl.
  - split; [congruence|tauto].
  - destruct (k0 =? k) eqn:E.
    + apply String.eqb_eq in E; subst. split; [auto|congruence].
    + apply String.eqb_neq in E. rewrite IH. split; [auto|intros [?|?]; [congruence|auto]].
Qed.

Lemma keys_set {V : Type} (k : string) (v : V) (o : t V) :
  keys (set k v o) = if has k o then keys o else keys o ++ [k].
Proof.
  unfold has. induction o as [|[k0 v0] o IH]; simpl.
  - reflexivity.
  - destruct (k0 =? k) eqn:E; simpl.
    + reflexivity.
    + rewrite IH. destruct (get k o); reflexivity.
Qed.

Lemma NoDup_keys_set {V : Type} (k : string) (v : V) (o : t V) :
  NoDup (keys o) -> NoDup (keys (set k v o)).
Proof.
  intros H. rewrite keys_set. unfold has.
  destruct (get k o) eqn:E; auto.
  assert (~ In k (keys o)) by (rewrite <- get_in_keys; congruence).
  apply NoDup_app; auto.
  - constructor; [simpl; tauto|constructor].
  - intros a Ha [<-|[]]. contradiction.
Qed.

Lemma get_In {V : Type} (k : string) (v : V) (o : t V) :
  get k o = Some v -> In (k, v) o.
Proof.
  induction o as [|[k0 v0] o IH]; simpl; [discriminate|].
  destruct (k0 =? k) eqn:E.
  - apply String.eqb_eq in E; subst. intros [= ->]. now left.
  - auto.
Qed.

Lemma In_get {V : Type} (k : string) (v : V) (o : t V) :
  NoDup (keys o) -> In (k, v) o -> get k o = Some v.
Proof.
  induction o as [|[k0 v0] o IH]; simpl; [tauto|].
  intros Hn [[= -> ->]|Hin].
  - now rewrite String.eqb_refl.
  - inversion Hn as [|? ? Hk Hn']; subst.
    destruct (k0 =? k) eqn:E.
    + apply String.eqb_eq in E; subst. elim Hk.
      change k with (fst (k, v)). now apply in_map.
    + auto.
Qed.

(** Under distinct keys, the entries stored under one key number one or none. *)
Lemma count_key {V : Type} (p : V -> bool) (k : string) (o : t V) :
  NoDup (keys o) ->
  length (filter (fun kv => (fst kv =? k) && p (snd kv)) o)
  = match get k o with Some v => if p v then 1 else 0 | None => 0 end.
Proof.
  induction o as [|[k0 v0] o IH]; simpl; [reflexivity|].
  intros Hn. inversion Hn as [|? ? Hk Hn']; subst.
  destruct (k0 =? k) eqn:E; simpl.
  - apply String.eqb_eq in E; subst.
    assert (Z : get k o = None).
    { destruct (get k o) eqn:G; auto. elim Hk. apply get_in_keys. congruence. }
    destruct (p v0); simpl; rewrite IH, Z by assumption; reflexivity.
  - auto.
Qed.

End JsObjFacts.

(** * Facts about the ordered diff *)

Module DiffFacts.
Import Diff.

Section Counting.

Context {X : Type}.
Variable kf : X -> string.

Lemma has_key_In (k : string) (l : list X) :
  has_key kf k l = true <-> exists x, In x l /\ kf x = k.
Proof.
  unfold has_key. rewrite existsb_exists.
  split; intros (x & Hx & E); exists x; split; auto; now apply String.eqb_eq.
Qed.

Lemma has_key_map_In (k : string) (l : list X) :
  has_key kf k l = true <-> In k (map kf l).
Proof.
  rewrite has_key_In, in_map_iff. split; intros (x & A & B); exists x; tauto.
Qed.

Lemma filter_key_const (k : string) (q : string -> bool) (l : list X) :
  filter (fun x => (kf x =? k) && q (kf x)) l
  = if q k then filter (fun x => kf x =? k) l else [].
Proof.
  induction l as [|x l IH]; simpl.
  - now destruct (q k).
  - destruct (kf x =? k) eqn:E; simpl.
    + apply String.eqb_eq in E. rewrite E, IH. now destruct (q k).
    + exact IH.
Qed.

Lemma count_key_NoDup (k : string) (l : list X) :
  NoDup (map kf l) ->
  length (filter (fun x => kf x =? k) l) = one_if (has_key kf k l).
Proof.
  induction l as [|x l IH]; simpl; [reflexivity|].
  intros Hn. inversion Hn as [|? ? Hx Hn']; subst.
  destruct (kf x =? k) eqn:E; simpl.
  - apply String.eqb_eq in E.
    rewrite IH by assumption.
    destruct (has_key kf k l) eqn:Hk; [|reflexivity].
    apply has_key_map_In in Hk. congruence.
  - auto.
Qed.

Lemma count_key_le (k : string) (q : string -> bool) (l : list X) :
  NoDup (map kf l) ->
  length (filter (fun x => (kf x =? k) && q (kf x)) l)
  = one_if (has_key kf k l && q k).
Proof.
  intros Hn. rewrite filter_key_const.
  destruct (q k); simpl.
  - rewrite count_key_NoDup by assumption. now rewrite andb_true_r.
  - now rewrite andb_false_r.
Qed.

Lemma walk_count_added (k : string) (old kept new : list X) :
  length (filter (op_added kf k) (walk kf old kept new))
  = length (filter (fun x => (kf x =? k) && negb (has_key kf (kf x) old)) new).
Proof.
  induction new as [|x new IH]; simpl; [reflexivity|].
  rewrite filter_app, length_app, IH.
  destruct (has_key kf (kf x) old); simpl.
  - rewrite andb_false_r. destruct (has_key kf (kf x) kept); reflexivity.
  - rewrite andb_true_r. destruct (kf x =? k); reflexivity.
Qed.

Lemma walk_count_moved (k : string) (old kept new : list X) :
  length (filter (op_moved kf k) (walk kf old kept new))
  = length (filter (fun x => (kf x =? k)
                             && (has_key kf (kf x) old && negb (has_key kf (kf x) kept))) new).
Proof.
  induction new as [|x new IH]; simpl; [reflexivity|].
  rewrite filter_app, length_app, IH.
  destruct (has_key kf (kf x) old); simpl.
  - destruct (has_key kf (kf x) kept); simpl.
    + now rewrite andb_false_r.
    + rewrite andb_true_r. destruct (kf x =? k); reflexivity.
  - now rewrite andb_false_r.
Qed.

Lemma walk_count_removed (k : string) (old kept new : list X) :
  filter (op_removed kf k) (walk kf old kept new) = [].
Proof.
  induction new as [|x new IH]; simpl; [reflexivity|].
  rewrite filter_app, IH, app_nil_r.
  destruct (has_key kf (kf x) old); simpl; [destruct (has_key kf (kf x) kept)|]; reflexivity.
Qed.

Lemma removals_count (k : string) (p : X -> bool) (l : list X) :
  length (filter (op_removed kf k) (map removed (filter p l)))
  = length (filter (fun x => (kf x =? k) && p x) l)
  /\ filter (op_added kf k) (map removed (filter p l)) = []
  /\ filter (op_moved kf k) (map removed (filter p l)) = [].
Proof.
  induction l as [|x l (IH1 & IH2 & IH3)]; simpl; auto.
  destruct (p x); simpl.
  - rewrite andb_true_r. destruct (kf x =? k); simpl; auto.
  - rewrite andb_false_r. auto.
Qed.

(** How many operations of each kind the diff emits for one key. *)
Lemma diff_counts (k : string) (old new : list X) :
  NoDup (map kf old) -> NoDup (map kf new) ->
  let ops := diffQueryOrderedChanges kf old new in
  length (filter (op_removed kf k) ops)
    = one_if (has_key kf k old && negb (has_key kf k new))
  /\ length (filter (op_added kf k) ops)
    = one_if (has_key kf k new && negb (has_key kf k old))
  /\ (length (filter (op_moved kf k) ops)
    <= one_if (has_key kf k new && has_key kf k old))%nat.
Proof.
  intros Ho Hn ops. subst ops. unfold diffQueryOrderedChanges.
  rewrite !filter_app, !length_app.
  destruct (removals_count k (fun x => negb (has_key kf (kf x) new)) old) as (R1 & R2 & R3).
  rewrite R1, R2, R3, walk_count_removed, walk_count_added, walk_count_moved; simpl.
  rewrite Nat.add_0_r.
  rewrite (count_key_le k (fun j => negb (has_key kf j new)) old Ho).
  rewrite (count_key_le k (fun j => negb (has_key kf j old)) new Hn).
  rewrite (count_key_le k (fun j => has_key kf j old && negb (has_key kf j (unmoved kf old new))) new Hn).
  repeat split.
  destruct (has_key kf k new), (has_key kf k old), (has_key kf k (unmoved kf old new)); simpl; lia.
Qed.

(** Every operation is about a key of the sequence it concerns. *)
Lemma walk_In (old kept new : list X) (op : Op X) :
  In op (walk kf old kept new) ->
  match op with
  | removed _ => False
  | addedBefore x _ | movedBefore x _ => In x new
  end.
Proof.
  induction new as [|x new IH]; simpl; [tauto|].
  rewrite in_app_iff. intros [H|H].
  - destruct (has_key kf (kf x) old); simpl in H;
      [destruct (has_key kf (kf x) kept); simpl in H|];
      try tauto; destruct H as [<-|[]]; auto.
  - specialize (IH H). destruct op; auto.
Qed.

Lemma diff_In (old new : list X) (op : Op X) :
  In op (diffQueryOrderedChanges kf old new) ->
  match op with
  | removed x => In x old
  | addedBefore x _ | movedBefore x _ => In x new
  end.
Proof.
  unfold diffQueryOrderedChanges. rewrite in_app_iff, in_map_iff.
  intros [(x & <- & Hx)|H].
  - now apply filter_In in Hx.
  - apply walk_In in H. destruct op; tauto.
Qed.

End Counting.

End DiffFacts.

(** * Facts about [diffArray] *)

Lemma has_entry_ids (k : string) (arr : list Entry) :
  Diff.has_key prop_key k (map _id arr) = has_entry k arr.
Proof.
  unfold Diff.has_key, has_entry. induction arr as [|e arr IH]; simpl; [reflexivity|].
  now rewrite IH.
Qed.

Lemma has_entry_In (k : string) (arr : list Entry) :
  has_entry k arr = true <-> exists e, In e arr /\ entry_key e = k.
Proof.
  unfold has_entry. rewrite existsb_exists.
  split; intros (e & He & E); exists e; split; auto; now apply String.eqb_eq.
Qed.

Section Positions.

Let pos_step (pos : JsObj.t nat) (ie : nat * Entry) : JsObj.t nat :=
  JsObj.set (entry_key (snd ie)) (fst ie) pos.

(** The invariant of the loop that fills a position map. *)
Lemma positions_loop (l pre : list Entry) (acc : JsObj.t nat) :
  NoDup (JsObj.keys acc) ->
  (forall k i, JsObj.get k acc = Some i ->
     exists e, nth_error (pre ++ l) i = Some e /\ entry_key e = k) ->
  let r := fold_left pos_step (combine (seq (length pre) (length l)) l) acc in
  NoDup (JsObj.keys r)
  /\ (forall k i, JsObj.get k r = Some i ->
        exists e, nth_error (pre ++ l) i = Some e /\ entry_key e = k)
  /\ (forall k, JsObj.has k r = JsObj.has k acc || has_entry k l).
Proof.
  revert pre acc. induction l as [|x l IH]; intros pre acc Hn Hs; simpl.
  - repeat split; auto. intros k. now rewrite orb_false_r.
  - specialize (IH (pre ++ [x]) (pos_step acc (length pre, x))).
    rewrite <- app_assoc, length_app, Nat.add_1_r in IH. simpl in IH.
    destruct IH as (I1 & I2 & I3).
    + now apply JsObjFacts.NoDup_keys_set.
    + intros k i. unfold pos_step; simpl. rewrite JsObjFacts.get_set.
      destruct (entry_key x =? k) eqn:E.
      * intros [= <-]. exists x. split; [|now apply String.eqb_eq].
        rewrite nth_error_app2 by lia. now rewrite Nat.sub_diag.
      * apply Hs.
    + repeat split; auto.
      intros k. rewrite I3. unfold JsObj.has, pos_step; simpl.
      rewrite JsObjFacts.get_set.
      destruct (entry_key x =? k); simpl; [now rewrite orb_true_r|reflexivity].
Qed.

Lemma positions_spec (arr : list Entry) :
  NoDup (JsObj.keys (positions arr))
  /\ (forall k i, JsObj.get k (positions arr) = Some i ->
        exists e, nth_error arr i = Some e /\ entry_key e = k)
  /\ (forall k, JsObj.has k (positions arr) = has_entry k arr).
Proof.
  pose proof (positions_loop arr [] []) as H. simpl in H.
  apply H; [constructor|]. intros k i. discriminate.
Qed.

End Positions.

(** Reading [arr[pos[id]].item] succeeds for every key of [arr]. *)
Lemma item_at_key (k : string) (arr : list Entry) :
  has_entry k arr = true ->
  exists i e, JsObj.get k (positions arr) = Some i
              /\ nth_error arr i = Some e /\ entry_key e = k
              /\ item_at arr (JsObj.get k (positions arr)) = Ok (i, item e).
Proof.
  intros H. destruct (positions_spec arr) as (_ & Hs & Hh).
  rewrite <- Hh in H. unfold JsObj.has in H.
  destruct (JsObj.get k (positions arr)) as [i|] eqn:G; [|discriminate].
  destruct (Hs k i G) as (e & He & Ek).
  exists i, e. repeat split; auto. unfold item_at. now rewrite He.
Qed.

Lemma then_ok (a b : list Call) (r : option JsError) :
  then_ (a, None) (b, r) = (a ++ b, r).
Proof. reflexivity. Qed.

(** A loop whose body never throws makes the calls of every round. *)
Lemma each_total {A : Type} (f : A -> Result (list Call)) (g : A -> list Call) (l : list A) :
  (forall a, In a l -> f a = Ok (g a)) ->
  each f l = (flat_map g l, None).
Proof.
  induction l as [|a l IH]; simpl; intros H; [reflexivity|].
  rewrite (H a) by now left. rewrite IH by (intros; apply H; now right).
  reflexivity.
Qed.

Section DiffArrayFacts.

Variables A B : list Entry.

(** The observer turns an operation on a key it can find into one call of
    the same kind on the same key. *)
Lemma observer_total (op : Diff.Op JsVal) :
  match op with
  | Diff.removed x => has_entry (prop_key x) A
  | Diff.addedBefore x _ | Diff.movedBefore x _ => has_entry (prop_key x) B
  end = true ->
  exists c, observer A B op = Ok [c]
    /\ forall k, is_removed k c = Diff.op_removed prop_key k op
              /\ is_addedAt k c = Diff.op_added prop_key k op
              /\ is_movedTo k c = Diff.op_moved prop_key k op
              /\ is_changed k c = false.
Proof.
  destruct op as [x|x b|x b]; simpl; intros H;
    destruct (item_at_key _ _ H) as (i & e & _ & _ & _ & ->);
    eexists; (split; [reflexivity|]); intros k; simpl; auto.
Qed.

Lemma each_observer (ops : list (Diff.Op JsVal)) :
  (forall op, In op ops ->
     match op with
     | Diff.removed x => In x (map _id A)
     | Diff.addedBefore x _ | Diff.movedBefore x _ => In x (map _id B)
     end) ->
  exists cs, each (observer A B) ops = (cs, None)
    /\ forall k,
         count (is_removed k) cs = length (filter (Diff.op_removed prop_key k) ops)
      /\ count (is_addedAt k) cs = length (filter (Diff.op_added prop_key k) ops)
      /\ count (is_movedTo k) cs = length (filter (Diff.op_moved prop_key k) ops)
      /\ count (is_changed k) cs = 0.
Proof.
  induction ops as [|op ops IH]; intros Hin.
  - exists []. split; [reflexivity|]. intros k; repeat split.
  - destruct IH as (cs & E & Hc); [intros; apply Hin; now right|].
    destruct (observer_total op) as (c & Ec & Hk).
    { specialize (Hin op (or_introl eq_refl)).
      destruct op as [x|x b|x b]; rewrite <- has_entry_ids;
        apply DiffFacts.has_key_map_In; now apply in_map. }
    exists (c :: cs). simpl. rewrite Ec, E. split; [reflexivity|].
    intros k. destruct (Hk k) as (K1 & K2 & K3 & K4), (Hc k) as (C1 & C2 & C3 & C4).
    unfold count in *; simpl.
    rewrite K1, K2, K3, K4.
    destruct (Diff.op_removed prop_key k op), (Diff.op_added prop_key k op),
             (Diff.op_moved prop_key k op); simpl; auto.
Qed.

Lemma each_fire_changed (l : list (string * nat)) :
  (forall k i, In (k, i) l -> exists e, nth_error B i = Some e /\ entry_key e = k) ->
  exists cs, each (fire_changed A B) l = (cs, None)
    /\ Forall (changed_old_new A B) cs
    /\ forall k,
         count (is_changed k) cs
         = length (filter (fun kv => (fst kv =? k) && has_entry k A) l)
      /\ count (is_removed k) cs = 0
      /\ count (is_addedAt k) cs = 0
      /\ count (is_movedTo k) cs = 0.
Proof.
  induction l as [|[k0 i0] l IH]; intros Hl.
  - exists []. split; [reflexivity|]. split; [constructor|]. intros k; repeat split.
  - destruct IH as (cs & E & Hf & Hc); [intros; apply Hl; now right|].
    destruct (Hl k0 i0 (or_introl eq_refl)) as (en & Hen & Ken).
    destruct (positions_spec A) as (_ & _ & Hh).
    simpl. rewrite Hh.
    destruct (has_entry k0 A) eqn:HA.
    + destruct (item_at_key _ _ HA) as (j & eo & _ & Heo & Keo & ->).
      simpl. rewrite Hen, E.
      exists (changed (JStr k0) (item eo) (item en) :: cs).
      split; [reflexivity|]. split.
      * constructor; auto. exists k0, eo, en.
        repeat split; auto; eapply nth_error_In; eassumption.
      * intros k. destruct (Hc k) as (C1 & C2 & C3 & C4).
        unfold count in *; simpl.
        destruct (k0 =? k) eqn:Ek; simpl.
        -- apply String.eqb_eq in Ek; subst k. rewrite HA in C1 |- *. simpl. auto.
        -- auto.
    + rewrite E. exists cs. split; [reflexivity|]. split; auto.
      intros k. destruct (Hc k) as (C1 & C2 & C3 & C4).
      repeat split; auto. simpl.
      destruct (k0 =? k) eqn:Ek; simpl; auto.
      apply String.eqb_eq in Ek; subst k. rewrite HA in C1 |- *. exact C1.
Qed.

(** [diffArray] never throws; its calls are those of the observer followed
    by the calls of [changed]. *)
Lemma diffArray_calls :
  exists cs1 cs2,
    diffArray A B = (cs1 ++ cs2, None)
    /\ each (observer A B) (Diff.diffQueryOrderedChanges prop_key (map _id A) (map _id B))
       = (cs1, None)
    /\ each (fire_changed A B) (positions B) = (cs2, None).
Proof.
  destruct (each_observer (Diff.diffQueryOrderedChanges prop_key (map _id A) (map _id B)))
    as (cs1 & E1 & _).
  { intros op Hop. apply DiffFacts.diff_In in Hop. exact Hop. }
  destruct (each_fire_changed (positions B)) as (cs2 & E2 & _).
  { intros k i Hin. destruct (positions_spec B) as (Hn & Hs & _).
    apply Hs. now apply JsObjFacts.In_get. }
  exists cs1, cs2. unfold diffArray. rewrite E1, E2. auto.
Qed.

End DiffArrayFacts.

Lemma count_app (p : Call -> bool) (a b : list Call) :
  count p (a ++ b) = count p a + count p b.
Proof. unfold count. now rewrite filter_app, length_app. Qed.

(** Any call of [changed] that [diffArray] makes passes the old item second
    and the new item third. *)
Lemma diffArray_changed_order (A B : list Entry) (c : Call) :
  In c (fst (diffArray A B)) ->
  (exists id x y, c = changed id x y) ->
  changed_old_new A B c.
Proof.
  intros Hin (id & x & y & ->).
  destruct (diffArray_calls A B) as (cs1 & cs2 & E & E1 & E2).
  rewrite E in Hin; simpl in Hin. apply in_app_iff in Hin as [Hin|Hin].
  - destruct (each_observer A B (Diff.diffQueryOrderedChanges prop_key (map _id A) (map _id B)))
      as (cs & E' & Hc).
    { intros op Hop. now apply DiffFacts.diff_In in Hop. }
    rewrite E1 in E'. injection E' as <-.
    destruct (Hc (prop_key id)) as (_ & _ & _ & Z). unfold count in Z.
    assert (In (changed id x y) (filter (is_changed (prop_key id)) cs1)).
    { apply filter_In. split; auto. simpl. apply String.eqb_refl. }
    destruct (filter (is_changed (prop_key id)) cs1); [contradiction|discriminate].
  - destruct (each_fire_changed A B (positions B)) as (cs & E' & Hf & _).
    { intros k i Hk. destruct (positions_spec B) as (Hn & Hs & _).
      apply Hs. now apply JsObjFacts.In_get. }
    rewrite E2 in E'. injection E' as <-.
    rewrite Forall_forall in Hf. now apply Hf.
Qed.

(** C1: on the old snapshot [{_id: "a", item: "old"}] and the new snapshot
    [{_id: "a", item: "new"}], [diffArray] calls [changed("a", "old", "new")]:
    the argument documented as the new item is the item of the old snapshot,
    and the third argument is the item of the new snapshot. *)
Theorem changed_passes_old_item_first :
  diffArray [mkEntry (JStr "a") (JStr "old")] [mkEntry (JStr "a") (JStr "new")]
  = ([changed (JStr "a") (JStr "old") (JStr "new")], None).
Proof. reflexivity. Qed.

(** C5, amended: for snapshots whose keys are unique as property names, the
    form in which [posOld] and [posNew] hold them, and are ordinary property
    names, one run of [diffArray] does not throw and calls, for every key:
    [addedAt] once when the key is only in the new snapshot and never
    otherwise, [removed] once when it is only in the old snapshot and never
    otherwise, [changed] once when it is in both and never otherwise, and
    [movedTo] at most once when it is in both and never otherwise. *)
Theorem diffArray_coverage (A B : list Entry) :
  NoDup (map entry_key A) ->
  NoDup (map entry_key B) ->
  ordinary_keys A ->
  ordinary_keys B ->
  exists cs, diffArray A B = (cs, None)
    /\ forall k,
         count (is_addedAt k) cs = one_if (has_entry k B && negb (has_entry k A))
      /\ count (is_removed k) cs = one_if (has_entry k A && negb (has_entry k B))
      /\ count (is_changed k) cs = one_if (has_entry k A && has_entry k B)
      /\ (count (is_movedTo k) cs <= one_if (has_entry k A && has_entry k B))%nat.
Proof.
  intros HA HB _ _.
  destruct (diffArray_calls A B) as (cs1 & cs2 & E & E1 & E2).
  exists (cs1 ++ cs2). split; [exact E|]. intros k.
  destruct (each_observer A B (Diff.diffQueryOrderedChanges prop_key (map _id A) (map _id B)))
    as (cs & E' & Hc).
  { intros op Hop. now apply DiffFacts.diff_In in Hop. }
  rewrite E1 in E'. injection E' as <-.
  destruct (positions_spec B) as (Hn & Hs & Hh).
  destruct (each_fire_changed A B (positions B)) as (cs & E' & _ & Hd).
  { intros k' i Hk. apply Hs. now apply JsObjFacts.In_get. }
  rewrite E2 in E'. injection E' as <-.
  destruct (Hc k) as (R1 & A1 & M1 & C1), (Hd k) as (C2 & R2 & A2 & M2).
  rewrite !count_app, R1, A1, M1, C1, C2, R2, A2, M2, !Nat.add_0_r. simpl.
  destruct (DiffFacts.diff_counts prop_key k (map _id A) (map _id B)) as (D1 & D2 & D3).
  { now rewrite map_map. }
  { now rewrite map_map. }
  rewrite !has_entry_ids in *.
  rewrite D1, D2. repeat split.
  - pose proof (JsObjFacts.count_key (fun _ => has_entry k A) k (positions B) Hn) as Q.
    simpl in Q. rewrite Q. specialize (Hh k). unfold JsObj.has in Hh.
    destruct (JsObj.get k (positions B)); rewrite <- Hh;
      destruct (has_entry k A); reflexivity.
  - rewrite andb_comm. exact D3.
Qed.

(** The claim of C5 as it is written fails: the keys 1 and "1" are two
    keys, each in both snapshots, but one property name; the run calls
    [changed] once, not twice. *)
Lemma coverage_fails_for_colliding_keys :
  let A := [mkEntry (JNum 1) (JStr "x"); mkEntry (JStr "1") (JStr "y")] in
  NoDup (map _id A)
  /\ length A = 2
  /\ snd (diffArray A A) = None
  /\ count is_changed_call (fst (diffArray A A)) = 1
  /\ count (is_changed "1") (fst (diffArray A A)) = 1.
Proof.
  cbv zeta. split; [|repeat split].
  repeat constructor; simpl; intuition discriminate.
Qed.

(** ** Diffing against an empty snapshot *)

Lemma walk_empty_old (kept new : list JsVal) :
  Forall2 (fun x op => exists b, op = Diff.addedBefore x b)
          new (Diff.walk prop_key [] kept new).
Proof.
  induction new as [|x new IH]; simpl; constructor; eauto.
Qed.

Lemma each_observer_added (B : list Entry) (ids : list JsVal) (ops : list (Diff.Op JsVal)) :
  Forall2 (fun x op => exists b, op = Diff.addedBefore x b) ids ops ->
  (forall x, In x ids -> has_entry (prop_key x) B = true) ->
  exists cs, each (observer [] B) ops = (cs, None)
    /\ Forall2 (fun x c => exists it i b, c = addedAt x it i b) ids cs.
Proof.
  induction 1 as [|x op ids ops (b & ->) _ IH]; intros Hin.
  - exists []. split; [reflexivity|constructor].
  - destruct IH as (cs & E & F); [intros; apply Hin; now right|].
    destruct (item_at_key _ _ (Hin x (or_introl eq_refl))) as (i & e & _ & _ & _ & Hi).
    simpl. rewrite Hi, E. eexists. split; [reflexivity|].
    constructor; eauto.
Qed.

Lemma each_fire_changed_empty (B : list Entry) (l : list (string * nat)) :
  each (fire_changed [] B) l = ([], None).
Proof.
  induction l as [|[k i] l IH]; simpl; [reflexivity|]. now rewrite IH.
Qed.

(** Against an empty old snapshot [diffArray] calls [addedAt] once per entry
    of the new one, in order, and nothing else. *)
Lemma diffArray_from_empty (B : list Entry) :
  exists cs, diffArray [] B = (cs, None)
    /\ Forall2 (fun e c => exists it i b, c = addedAt (_id e) it i b) B cs.
Proof.
  destruct (each_observer_added B (map _id B) _ (walk_empty_old [] (map _id B)))
    as (cs & E & F).
  { intros x Hx. rewrite <- has_entry_ids. now apply DiffFacts.has_key_map_In, in_map. }
  exists cs. split.
  - unfold diffArray, Diff.diffQueryOrderedChanges; simpl.
    rewrite E, each_fire_changed_empty. unfold then_; simpl. now rewrite app_nil_r.
  - clear E. revert cs F. induction B as [|e B IH]; intros cs F; inversion F; subst;
      constructor; auto.
Qed.

Lemma initial_batch_suppressed (i : nat) (ds : list Doc) :
  flat_map (native_callbacks true) (initial_adds i ds) = [].
Proof. revert i; induction ds as [|d ds IH]; intros i; simpl; auto. Qed.

Lemma initial_batch_unguarded (i : nat) (ds : list Doc) :
  length (flat_map (native_callbacks false) (initial_adds i ds)) = length ds.
Proof. revert i; induction ds as [|d ds IH]; intros i; simpl; auto. Qed.

Section Attach.

Variable Random_id : nat -> string.

Lemma refetch_not_cursor (w : World) (s : Session) :
  (forall c, lastSeq s <> JCursor c) -> refetch w s = (w, s).
Proof.
  intros H. unfold refetch. destruct (lastSeq s) eqn:E; auto. now elim (H ref).
Qed.

(** C6: a session whose previous snapshot is empty and whose last sequence
    was no cursor, run on a cursor that holds two documents, calls [addedAt]
    exactly twice, once for each document in order, and calls nothing else,
    although the feed of the cursor announces the same two documents while
    [cursor.observe] runs; the new handle is left with [initial] false. *)
Theorem attach_adds_each_document_once
        (c : nat) (w : World) (s : Session) (d1 d2 : Doc) :
  docs (cursor_at c w) = [d1; d2] ->
  (forall c', lastSeq s <> JCursor c') ->
  or_empty (lastSeqArray s) = [] ->
  computation_stopped s = false ->
  let r := step Random_id (Invalidate (JCursor c)) w s in
  thrown r = None
  /\ (exists it1 i1 b1 it2 i2 b2,
        calls r = [addedAt (field "_id" d1) it1 i1 b1; addedAt (field "_id" d2) it2 i2 b2])
  /\ length (initial_adds 0 (docs (cursor_at c w))) = 2
  /\ activeObserveHandle (session r) = Some (length (handles w))
  /\ nth_error (handles (world r)) (length (handles w)) = Some (mkHandle c false false).
Proof.
  intros Hd Hl He Hs r. subst r. unfold step. rewrite Hs.
  assert (Hd0 : docs (cursor_at c (stop_handles w)) = [d1; d2]) by exact Hd.
  assert (Hn : length (handles (stop_handles w)) = length (handles w)).
  { unfold stop_handles; simpl. apply length_map. }
  rewrite <- Hn. change (cursor_at c w) with (cursor_at c (stop_handles w)).
  clear Hd Hn. revert Hd0. generalize (stop_handles w). clear w. intros w Hd.
  unfold autorun_body. rewrite (refetch_not_cursor w s Hl). simpl.
  assert (Hsame : same_cursor (lastSeq s) c = false).
  { destruct (lastSeq s) eqn:E; auto. now elim (Hl ref). }
  rewrite Hsame. unfold attach.
  pose proof (fetch_rewound c w) as Hf.
  destruct (fetch c (rewind c w)) as [ds w2] eqn:Ef. simpl in Hf. subst ds.
  rewrite He, Hd.
  destruct (diffArray_from_empty (entries_of_docs [d1; d2])) as (cs & E & F).
  rewrite E. simpl snd. cbv iota.
  assert (Hw2 : handles w2 = handles w).
  { replace w2 with (snd (fetch c (rewind c w))) by now rewrite Ef.
    reflexivity. }
  assert (Hdocs : docs (cursor_at c (rewind c w2)) = [d1; d2]).
  { rewrite cursor_at_rewind. replace w2 with (snd (fetch c (rewind c w))) by now rewrite Ef.
    unfold fetch, cursor_at; simpl.
    destruct (Nat.lt_ge_cases c (length (cursors w))) as [H|H].
    - rewrite nth_update by now rewrite update_length.
      simpl. rewrite nth_update by assumption. exact Hd.
    - unfold cursor_at in Hd. rewrite nth_overflow in Hd by assumption. discriminate. }
  set (w4 := match activeObserveHandle s with
             | Some h => handle_stop h (rewind c w2)
             | None => rewind c w2
             end).
  assert (Hc4 : cursor_at c w4 = cursor_at c (rewind c w2)).
  { unfold w4. destruct (activeObserveHandle s); reflexivity. }
  assert (Hh4 : length (handles w4) = length (handles w)).
  { unfold w4. destruct (activeObserveHandle s); simpl;
      [rewrite update_length|]; now rewrite Hw2. }
  unfold cursor_observe. rewrite Hc4, Hdocs.
  cbn [initial_adds flat_map native_callbacks negb app fst snd calls thrown session world
       activeObserveHandle].
  rewrite app_nil_r, Hh4.
  split; [reflexivity|]. split.
  { inversion F as [|e1 c1 l1 l1' (it1 & i1 & b1 & ->) F1]; subst.
    inversion F1 as [|e2 c2 l2 l2' (it2 & i2 & b2 & ->) F2]; subst.
    inversion F2; subst. simpl. now exists it1, i1, b1, it2, i2, b2. }
  split; [reflexivity|]. split; [reflexivity|].
  unfold set_initial, with_handles; simpl.
  rewrite <- Hh4.
  assert (G : forall (hs : list Handle) x f, nth_error (update (length hs) f (hs ++ [x])) (length hs) = Some (f x)).
  { induction hs as [|y hs IH]; intros x f; simpl; auto. }
  now rewrite G.
Qed.

End Attach.

(** * Read positions *)

Section Traversal.

Variable Random_id : nat -> string.

Lemma cursors_diff_and_commit (seq : JsVal) (arr : list Entry) (w : World) (s : Session) :
  cursors (world (diff_and_commit seq arr w s)) = cursors w.
Proof. unfold diff_and_commit. destruct (snd (diffArray _ arr)); reflexivity. Qed.

Lemma cursors_attach (c : nat) (w : World) (s : Session) :
  cursors (world (attach c w s)) = cursors (rewind c (snd (fetch c (rewind c w)))).
Proof.
  unfold attach. destruct (fetch c (rewind c w)) as [ds w2]; simpl.
  destruct (snd (diffArray _ _)); simpl; [reflexivity|].
  destruct (activeObserveHandle s); reflexivity.
Qed.

Lemma cursor_at_cursors (c : nat) (w w' : World) :
  cursors w = cursors w' -> cursor_at c w = cursor_at c w'.
Proof. unfold cursor_at. now intros ->. Qed.

Lemma traverse_docs (c c' : nat) (w : World) :
  docs (cursor_at c' (rewind c (snd (fetch c (rewind c w))))) = docs (cursor_at c' w).
Proof.
  destruct (Nat.eq_dec c c') as [<-|N].
  - rewrite cursor_at_rewind; simpl.
    unfold fetch, cursor_at; simpl.
    destruct (Nat.lt_ge_cases c (length (cursors w))) as [H|H].
    + rewrite nth_update by now rewrite update_length.
      simpl. now rewrite nth_update.
    + rewrite !update_beyond; auto. now rewrite update_beyond.
  - now rewrite traverse_other.
Qed.

(** The claim of C7 as it is written fails: the owner of the cursor of
    [sample_world] has read one document, and after the session's traversal
    the read position is the start. *)
Lemma read_position_not_restored :
  cursor_pos (cursor_at 0 (world (observe sample_id (JCursor 0) sample_world)))
  <> cursor_pos (cursor_at 0 sample_world).
Proof. vm_compute. discriminate. Qed.

(** C7, amended: a run that traverses a cursor, be it the cursor of the
    previous run or a newly attached one, leaves the read position of that
    cursor at the start, whatever it was before, and leaves its documents as
    they were. *)
Theorem traversal_leaves_cursor_rewound (seq : JsVal) (w : World) (s : Session) (c : nat) :
  lastSeq s = JCursor c \/ seq = JCursor c ->
  let r := autorun_body Random_id seq w s in
  cursor_pos (cursor_at c (world r)) = 0
  /\ docs (cursor_at c (world r)) = docs (cursor_at c w).
Proof.
  intros H r. subst r. unfold autorun_body.
  destruct (refetch w s) as [w1 s1] eqn:Er.
  assert (Hl1 : lastSeq s1 = lastSeq s).
  { pose proof (refetch_session w s) as P. rewrite Er in P. tauto. }
  assert (Hd1 : docs (cursor_at c w1) = docs (cursor_at c w)).
  { unfold refetch in Er. destruct (lastSeq s); try (injection Er as <- <-; reflexivity).
    injection Er as <- <-. apply traverse_docs. }
  assert (Hp1 : lastSeq s = JCursor c -> cursor_pos (cursor_at c w1) = 0).
  { intros E. unfold refetch in Er. rewrite E in Er. injection Er as <- <-.
    apply traverse_pos. }
  assert (Hat : forall c2, (c2 = c \/ cursor_pos (cursor_at c w1) = 0) ->
            cursor_pos (cursor_at c (world (attach c2 w1 s1))) = 0
            /\ docs (cursor_at c (world (attach c2 w1 s1))) = docs (cursor_at c w)).
  { intros c2 Hc2.
    rewrite (cursor_at_cursors c _ _ (cursors_attach c2 w1 s1)).
    rewrite traverse_docs. split; auto.
    destruct (Nat.eq_dec c2 c) as [->|N].
    - apply traverse_pos.
    - rewrite traverse_other by assumption. destruct Hc2; [contradiction|assumption]. }
  destruct (truthy seq) eqn:Ht; simpl.
  - destruct seq; simpl in Ht; try discriminate;
      try solve [destruct H as [H|H]; [|discriminate]; simpl; auto].
    + destruct H as [H|H]; [|discriminate].
      destruct (entries_of_array Random_id (random_calls w1) elems) as [[arr|e] n]; simpl.
      * rewrite (cursor_at_cursors c _ _ (cursors_diff_and_commit _ _ _ _)).
        unfold cursor_at in *; simpl. auto.
      * unfold cursor_at in *; simpl. auto.
    + destruct (same_cursor (lastSeq s1) ref) eqn:Es.
      * simpl. split; auto. rewrite Hl1 in Es.
        destruct H as [H|H].
        -- auto.
        -- injection H as ->. destruct (lastSeq s) eqn:El; simpl in Es; try discriminate.
           apply Nat.eqb_eq in Es. subst. auto.
      * apply Hat. destruct H as [H|H]; [right; auto|left; congruence].
  - destruct H as [H|H]; [|subst seq; discriminate].
    rewrite (cursor_at_cursors c _ _ (cursors_diff_and_commit _ _ _ _)). auto.
Qed.

End Traversal.

(** * Keys of a list *)

Section ArrayKeys.

Variable Random_id : nat -> string.

(** The claim of C9 as it is written fails: both elements carry an identity
    field, an empty string and a zero, and both receive a generated key. *)
Lemma falsy_identity_gets_random_key :
  has_field "_id" [("_id", JStr "")] = true
  /\ has_field "_id" [("_id", JNum 0)] = true
  /\ fst (entries_of_array sample_id 0
            [JObject [("_id", JStr "")]; JObject [("_id", JNum 0)]])
     = Ok [mkEntry (JStr "id0") (JObject [("_id", JStr "")]);
           mkEntry (JStr "id1") (JObject [("_id", JNum 0)])].
Proof. vm_compute. auto. Qed.

(** C9, amended: when a list without null or undefined elements is
    materialized, every element becomes the item of the entry at its index;
    an element whose [_id] is truthy gets that [_id] as key, and an element
    whose [_id] is absent or falsy gets the result of its own call of
    [Random.id()]. *)
Theorem array_entry_keys (elems : list JsVal) (n : nat) :
  Forall (fun doc => doc <> JNull /\ doc <> JUndefined) elems ->
  exists arr,
    entries_of_array Random_id n elems
    = (Ok arr, n + length (filter wants_random elems))
    /\ length arr = length elems
    /\ forall i doc, nth_error elems i = Some doc ->
         exists v, get_id doc = Ok v
           /\ nth_error arr i
              = Some (mkEntry
                        (if truthy v then v
                         else JStr (Random_id (n + length (filter wants_random (firstn i elems)))))
                        doc).
Proof.
  revert n. induction elems as [|d elems IH]; intros n Hf.
  - exists []. simpl. rewrite Nat.add_0_r. repeat split; auto.
    intros [|i] doc; discriminate.
  - inversion Hf as [|? ? [Hn Hu] Hf']; subst.
    assert (exists v, get_id d = Ok v) as (v & Ev).
    { destruct d; simpl; eauto; congruence. }
    simpl. unfold wants_random at 1. rewrite Ev.
    destruct (truthy v) eqn:Tv; simpl.
    + destruct (IH n Hf') as (arr & E & Hlen & Hi). rewrite E.
      eexists. split; [reflexivity|]. split; [simpl; congruence|].
      intros [|i] doc; simpl.
      * intros [= <-]. exists v. rewrite Tv. auto.
      * intros Hd. unfold wants_random at 1. rewrite Ev, Tv. simpl. now apply Hi.
    + destruct (IH (S n) Hf') as (arr & E & Hlen & Hi). rewrite E.
      eexists. split; [now rewrite Nat.add_succ_r|]. split; [simpl; congruence|].
      intros [|i] doc; simpl.
      * intros [= <-]. exists v. rewrite Tv, Nat.add_0_r. auto.
      * intros Hd. unfold wants_random at 1. rewrite Ev, Tv. simpl.
        rewrite Nat.add_succ_r. now apply Hi.
Qed.

End ArrayKeys.

(** * Observe handles over the life of a session *)

Section Handles.

Variable Random_id : nat -> string.

(** After [stop], a reactive trigger runs nothing. *)
Lemma stopped_ignores_invalidation (seq : JsVal) (w : World) (s : Session) :
  computation_stopped s = true ->
  step Random_id (Invalidate seq) w s = mkRun [] None w s.
Proof. intros H. simpl. now rewrite H. Qed.

(** A second [stop] changes nothing. *)
Lemma stop_twice (w : World) (s : Session) :
  let r := step Random_id Stop w s in
  step Random_id Stop (world r) (session r) = r.
Proof.
  simpl. now rewrite (stop_handles_twice (stop_handles w) (all_stopped_stop_handles w)).
Qed.

(** Once the computation is stopped and every handle with it, nothing that
    happens to the session reaches a callback. *)
Lemma stopped_steps_silent (ts : list Trigger) (w : World) (s : Session) :
  computation_stopped s = true -> all_stopped w ->
  fst (fst (steps Random_id ts w s)) = [].
Proof.
  revert w s. induction ts as [|t ts IH]; intros w s Hs Hw; simpl; auto.
  assert (G : calls (step Random_id t w s) = []
              /\ computation_stopped (session (step Random_id t w s)) = true
              /\ all_stopped (world (step Random_id t w s))).
  { destruct t as [seq|c ds ev|]; simpl.
    - rewrite Hs. auto.
    - split; [now apply deliver_all_stopped|]. split; auto.
    - split; auto. split; auto. apply all_stopped_stop_handles. }
  destruct G as (G1 & G2 & G3). specialize (IH _ _ G2 G3).
  destruct (steps Random_id ts _ _) as [[cs w'] s']. simpl in *.
  now rewrite G1, IH.
Qed.

(** A run on a falsy value or on an array creates no observe handle: the
    handles are those the invalidation has stopped. *)
Lemma list_run_all_stopped (seq : JsVal) (w : World) (s : Session) :
  (forall c, seq <> JCursor c) ->
  computation_stopped s = false ->
  all_stopped (world (step Random_id (Invalidate seq) w s)).
Proof.
  intros H Hs. simpl. rewrite Hs. unfold all_stopped.
  destruct (autorun_handles_kept Random_id seq (stop_handles w) s H) as [-> _].
  apply all_stopped_stop_handles.
Qed.

Lemma nth_error_update {A : Type} (f : A -> A) (l : list A) (i j : nat) :
  nth_error (update i f l) j
  = if (i =? j)%nat then option_map f (nth_error l j) else nth_error l j.
Proof.
  revert i j; induction l as [|x l IH]; intros [|i] [|j]; simpl; auto;
    destruct (i =? j)%nat; reflexivity.
Qed.

Lemma attach_one_active (c : nat) (w : World) (s : Session) :
  one_active w s ->
  one_active (world (attach c w s)) (session (attach c w s)).
Proof.
  intros Inv. unfold attach.
  destruct (fetch c (rewind c w)) as [ds w2] eqn:Ef.
  assert (Hw2 : handles w2 = handles w).
  { replace w2 with (snd (fetch c (rewind c w))) by now rewrite Ef. reflexivity. }
  destruct (snd (diffArray _ _)); simpl.
  - intros i h. simpl. rewrite Hw2. apply Inv.
  - set (w4 := match activeObserveHandle s with
               | Some h => handle_stop h (rewind c w2)
               | None => rewind c w2
               end).
    assert (H4 : forall i h, nth_error (handles w4) i = Some h -> h_stopped h = true).
    { intros i h. unfold w4. destruct (activeObserveHandle s) as [a|] eqn:Ea; simpl.
      - rewrite nth_error_update, Hw2.
        destruct (a =? i)%nat eqn:Eai.
        + destruct (nth_error (handles w) i); simpl; [intros [= <-]; reflexivity|discriminate].
        + intros Hn. destruct (h_stopped h) eqn:Hst; auto.
          specialize (Inv i h Hn Hst). rewrite Ea in Inv. injection Inv as ->.
          now rewrite Nat.eqb_refl in Eai.
      - rewrite Hw2. intros Hn. destruct (h_stopped h) eqn:Hst; auto.
        specialize (Inv i h Hn Hst). rewrite Ea in Inv. discriminate. }
    intros i h. simpl. rewrite nth_error_update.
    assert (Hcase : forall h', nth_error (handles w4 ++ [mkHandle c true false]) i = Some h' ->
              h_stopped h' = false -> i = length (handles w4)).
    { intros h' Hn Hst.
      destruct (Nat.lt_ge_cases i (length (handles w4))) as [L|G].
      - rewrite nth_error_app1 in Hn by assumption.
        apply H4 in Hn. congruence.
      - assert (i < length (handles w4 ++ [mkHandle c true false]))%nat
          by (apply nth_error_Some; congruence).
        rewrite length_app in H. simpl in H. lia. }
    destruct (length (handles w4) =? i)%nat eqn:E.
    + apply Nat.eqb_eq in E. now subst i.
    + intros Hn Hst. specialize (Hcase h Hn Hst). subst i.
      now rewrite Nat.eqb_refl in E.
Qed.

Lemma update_last {A : Type} (f : A -> A) (hs : list A) (x : A) :
  update (length hs) f (hs ++ [x]) = hs ++ [f x].
Proof. induction hs as [|y hs IH]; simpl; auto. now rewrite IH. Qed.

Lemma all_stopped_one_active (w : World) (s : Session) :
  all_stopped w -> one_active w s.
Proof. intros H i h Hn Hst. rewrite (H i h Hn) in Hst. discriminate. Qed.

(** A run on a cursor that is not the last sequence: either it throws before
    line 89 and creates no handle, or every earlier handle is stopped when
    [cursor.observe] is called and the new handle is the only one left
    delivering. *)
Lemma attach_handles (c : nat) (w : World) (s : Session) :
  all_stopped w ->
  let r := attach c w s in
  all_stopped (world r)
  \/ exists hs, handles (world r) = hs ++ [mkHandle c false false]
                /\ (forall h, In h hs -> h_stopped h = true)
                /\ activeObserveHandle (session r) = Some (length hs).
Proof.
  intros Hw. unfold attach.
  destruct (fetch c (rewind c w)) as [ds w2] eqn:Ef.
  assert (Hw2 : handles w2 = handles w).
  { replace w2 with (snd (fetch c (rewind c w))) by now rewrite Ef. reflexivity. }
  destruct (snd (diffArray _ _)); simpl.
  - left. unfold all_stopped; simpl. rewrite Hw2. exact Hw.
  - right.
    set (w4 := match activeObserveHandle s with
               | Some h => handle_stop h (rewind c w2)
               | None => rewind c w2
               end).
    exists (handles w4). split; [now rewrite update_last|]. split; [|reflexivity].
    intros h Hin. apply In_nth_error in Hin. destruct Hin as [i Hi].
    revert Hi. unfold w4. destruct (activeObserveHandle s) as [a|]; simpl.
    + rewrite nth_error_update, Hw2. destruct (a =? i)%nat.
      * destruct (nth_error (handles w) i); simpl; [intros [= <-]; reflexivity|discriminate].
      * apply Hw.
    + rewrite Hw2. apply Hw.
Qed.

Lemma autorun_one_active (seq : JsVal) (w : World) (s : Session) :
  one_active w s ->
  one_active (world (autorun_body Random_id seq w s))
             (session (autorun_body Random_id seq w s)).
Proof.
  intros Inv.
  unfold autorun_body.
  pose proof (refetch_handles w s) as Hh.
  destruct (refetch_session w s) as (Hl & Ha & _).
  destruct (refetch w s) as [w1 s1]; simpl in *.
  assert (Inv1 : one_active w1 s1).
  { intros i h. rewrite Hh, Ha. apply Inv. }
  assert (Hd : forall q arr n,
            one_active (world (diff_and_commit q arr (mkWorld (cursors w1) (handles w1) n) s1))
                       (session (diff_and_commit q arr (mkWorld (cursors w1) (handles w1) n) s1))).
  { intros q arr n. unfold diff_and_commit.
    destruct (snd (diffArray _ arr)); simpl; exact Inv1. }
  destruct (truthy seq); simpl.
  - destruct seq; simpl; auto.
    + destruct (entries_of_array Random_id (random_calls w1) elems) as [[arr|e] n]; simpl; auto.
    + destruct (same_cursor (lastSeq s1) ref); simpl; auto.
      now apply attach_one_active.
  - destruct w1 as [cs hs n]. apply (Hd seq [] n).
Qed.

(** Stepping a session never leaves more than one observe handle delivering,
    and that one is [activeObserveHandle]. *)
Lemma step_one_active (t : Trigger) (w : World) (s : Session) :
  one_active w s ->
  one_active (world (step Random_id t w s)) (session (step Random_id t w s)).
Proof.
  intros Inv. destruct t as [seq|c ds ev|]; simpl; auto.
  - destruct (computation_stopped s); auto.
    apply autorun_one_active, all_stopped_one_active, all_stopped_stop_handles.
  - apply all_stopped_one_active, all_stopped_stop_handles.
Qed.

Lemma steps_one_active (ts : list Trigger) (w : World) (s : Session) :
  one_active w s ->
  one_active (snd (fst (steps Random_id ts w s))) (snd (steps Random_id ts w s)).
Proof.
  revert w s. induction ts as [|t ts IH]; intros w s Inv; simpl; auto.
  specialize (IH _ _ (step_one_active t w s Inv)).
  destruct (steps Random_id ts _ _) as [[cs w'] s']. exact IH.
Qed.

(** From a world in which nothing is observed yet, whatever happens to the
    session, at most one handle is delivering. *)
Lemma session_one_active (seq : JsVal) (ts : list Trigger) (w : World) :
  handles w = [] ->
  let r := observe Random_id seq w in
  one_active (snd (fst (steps Random_id ts (world r) (session r))))
             (snd (steps Random_id ts (world r) (session r))).
Proof.
  intros Hw r. apply steps_one_active. subst r. unfold observe.
  apply autorun_one_active. intros i h. rewrite Hw. now destruct i.
Qed.

(** C2: [stop] stops the computation and with it every observe handle; from
    then on no trigger, reactive or native, reaches a callback, whatever
    happens and in whatever order; and a second [stop] changes nothing and
    throws nothing. *)
Theorem stop_ends_all_callbacks (w : World) (s : Session) (ts : list Trigger) :
  let r := step Random_id Stop w s in
  calls r = [] /\ thrown r = None
  /\ computation_stopped (session r) = true
  /\ all_stopped (world r)
  /\ fst (fst (steps Random_id ts (world r) (session r))) = []
  /\ step Random_id Stop (world r) (session r) = r.
Proof.
  intros r. subst r.
  split; [reflexivity|]. split; [reflexivity|]. split; [reflexivity|].
  split; [apply all_stopped_stop_handles|]. split.
  - apply stopped_steps_silent; [reflexivity|apply all_stopped_stop_handles].
  - apply stop_twice.
Qed.

(** C3: from a world in which nothing is observed yet, whatever happens to
    the session, at most one observe handle is delivering and it is
    [activeObserveHandle]; a further run on a falsy value or on an array
    leaves every handle stopped; and a further run on a cursor either leaves
    every handle stopped or ends with one new handle behind handles that are
    all stopped. *)
Theorem one_subscription_at_a_time (seq0 : JsVal) (ts : list Trigger) (w0 : World) :
  handles w0 = [] ->
  let r0 := observe Random_id seq0 w0 in
  let w := snd (fst (steps Random_id ts (world r0) (session r0))) in
  let s := snd (steps Random_id ts (world r0) (session r0)) in
  one_active w s
  /\ (forall seq, computation_stopped s = false -> (forall c, seq <> JCursor c) ->
        all_stopped (world (step Random_id (Invalidate seq) w s)))
  /\ (forall c, computation_stopped s = false ->
        let r := step Random_id (Invalidate (JCursor c)) w s in
        all_stopped (world r)
        \/ exists hs, handles (world r) = hs ++ [mkHandle c false false]
                      /\ (forall h, In h hs -> h_stopped h = true)
                      /\ activeObserveHandle (session r) = Some (length hs)).
Proof.
  intros Hw r0 w s. split; [|split].
  - now apply session_one_active.
  - intros seq Hs Hc. now apply list_run_all_stopped.
  - intros c Hs. simpl. rewrite Hs.
    unfold autorun_body.
    pose proof (refetch_handles (stop_handles w) s) as Hh.
    destruct (refetch (stop_handles w) s) as [w1 s1]; simpl in *.
    assert (St : all_stopped w1).
    { unfold all_stopped. rewrite Hh. apply all_stopped_stop_handles. }
    destruct (same_cursor (lastSeq s1) c); simpl; [now left|].
    now apply attach_handles.
Qed.

End Handles.

(** * Applying the diff to the old keys *)

Module RoundTrip.
Import Diff DiffFacts.

Section Proofs.

Context {X : Type}.
Variable kf : X -> string.
Hypothesis kf_inj : forall x y, kf x = kf y -> x = y.

Lemma has_key_app (k : string) (a b : list X) :
  has_key kf k (a ++ b) = has_key kf k a || has_key kf k b.
Proof. unfold has_key. apply existsb_app. Qed.

Lemma has_key_false (k : string) (l : list X) :
  has_key kf k l = false <-> ~ In k (map kf l).
Proof.
  rewrite <- has_key_map_In. destruct (has_key kf k l); split; intros; congruence.
Qed.

Lemma In_has_key (x : X) (l : list X) : In x l -> has_key kf (kf x) l = true.
Proof. intros H. apply has_key_In. eauto. Qed.

Lemma has_key_In_inj (x : X) (l : list X) : has_key kf (kf x) l = true -> In x l.
Proof.
  intros H. apply has_key_In in H as (y & Hy & E). now rewrite <- (kf_inj _ _ E).
Qed.

Lemma subseq_In (s l : list X) : subseq s l -> forall x, In x s -> In x l.
Proof. induction 1; simpl; intuition. Qed.

Lemma subseq_filter (s l : list X) :
  subseq s l -> NoDup (map kf l) ->
  filter (fun y => has_key kf (kf y) s) l = s.
Proof.
  induction 1 as [|x s l H IH|x s l H IH]; simpl; intros Hn.
  - reflexivity.
  - inversion Hn as [|? ? Hx Hn']; subst.
    destruct (has_key kf (kf x) s) eqn:E; auto.
    apply has_key_In_inj in E. elim Hx. apply in_map. eapply subseq_In; eauto.
  - inversion Hn as [|? ? Hx Hn']; subst.
    unfold has_key at 1. simpl. rewrite String.eqb_refl. simpl. f_equal.
    transitivity (filter (fun y => has_key kf (kf y) s) l); [|now apply IH].
    apply filter_ext_in. intros y Hy.
    unfold has_key; simpl.
    destruct (kf x =? kf y) eqn:E; auto.
    apply String.eqb_eq in E. elim Hx. rewrite E. now apply in_map.
Qed.

Lemma unmoved_subseq (old new : list X) :
  subseq (unmoved kf old new) new /\ subseq (unmoved kf old new) old.
Proof.
  revert new. induction old as [|x old IH]; intros new.
  - simpl. split; [|constructor]. induction new; constructor; auto.
  - induction new as [|y new IHn].
    + simpl. split; constructor. clear. induction old; constructor; auto.
    + change (unmoved kf (x :: old) (y :: new))
        with (if kf x =? kf y then y :: unmoved kf old new
              else longer (unmoved kf old (y :: new)) (unmoved kf (x :: old) new)).
      destruct (kf x =? kf y) eqn:E.
      * apply String.eqb_eq, kf_inj in E. subst y.
        destruct (IH new). split; apply subseq_take; auto.
      * unfold longer. destruct (_ <? _)%nat.
        -- destruct (IH (y :: new)). split; auto. now apply subseq_skip.
        -- destruct IHn. split; auto. now apply subseq_skip.
Qed.

Lemma apply_script_app (m : Missing) (a b : list (Op X)) (l : list X) :
  apply_script kf m (a ++ b) l = apply_script kf m b (apply_script kf m a l).
Proof. unfold apply_script. apply fold_left_app. Qed.

Lemma filter_twice (p q : X -> bool) (l : list X) :
  filter p (filter q l) = filter (fun y => q y && p y) l.
Proof.
  induction l as [|y l IH]; simpl; auto.
  destruct (q y); simpl; [destruct (p y)|]; now rewrite IH.
Qed.

(** The removals leave the keys that are not removed, in their order. *)
Lemma apply_removals (m : Missing) (R l : list X) :
  apply_script kf m (map removed R) l
  = filter (fun y => negb (has_key kf (kf y) R)) l.
Proof.
  revert l. induction R as [|x R IH]; intros l; simpl.
  - symmetry. apply forallb_filter_id. now apply forallb_forall.
  - unfold apply_script in *. rewrite IH. unfold delete. rewrite filter_twice.
    apply filter_ext. intros y. unfold has_key; simpl.
    rewrite (String.eqb_sym (kf x)). now rewrite negb_orb.
Qed.

Lemma removals_keep_new (old new : list X) :
  filter (fun y => negb (has_key kf (kf y)
                           (filter (fun x => negb (has_key kf (kf x) new)) old))) old
  = filter (fun y => has_key kf (kf y) new) old.
Proof.
  apply filter_ext_in. intros y Hy.
  destruct (has_key kf (kf y) new) eqn:E; simpl.
  - apply negb_true_iff, has_key_false. intros Hin.
    apply in_map_iff in Hin as (x & Ex & Hx). apply filter_In in Hx as (_ & Hx).
    rewrite Ex, E in Hx. discriminate.
  - apply negb_false_iff, In_has_key, filter_In. split; auto. now rewrite E.
Qed.

Lemma insert_before_found (k : string) (x : X) (l : list X) :
  has_key kf k l = true ->
  exists l1 y l2,
    l = l1 ++ y :: l2 /\ kf y = k /\ has_key kf k l1 = false
    /\ insert_before kf k x l = Some (l1 ++ x :: y :: l2).
Proof.
  induction l as [|z l IH]; simpl; [discriminate|].
  destruct (kf z =? k) eqn:E; simpl.
  - intros _. exists [], z, l. repeat split; auto. now apply String.eqb_eq.
  - intros H. destruct (IH H) as (l1 & y & l2 & -> & Ky & H1 & ->).
    exists (z :: l1), y, l2. repeat split; auto. simpl. now rewrite E.
Qed.

Lemma split_at_unique (y : X) (a b a' b' : list X) :
  a ++ y :: b = a' ++ y :: b' -> ~ In y a -> ~ In y a' -> a = a' /\ b = b'.
Proof.
  revert a'. induction a as [|z a IH]; intros [|z' a']; simpl; intros E Ha Ha'.
  - injection E as ->. auto.
  - injection E as -> _. tauto.
  - injection E as -> _. tauto.
  - injection E as -> E. destruct (IH a' E) as [-> ->]; tauto.
Qed.

Lemma delete_no_key (x : X) (l : list X) :
  has_key kf (kf x) l = false -> delete kf x l = l.
Proof.
  intros H. unfold delete. apply forallb_filter_id, forallb_forall.
  intros y Hy. apply negb_true_iff. apply String.eqb_neq. intros E.
  apply has_key_false in H. apply H. rewrite <- E. now apply in_map.
Qed.

Lemma delete_has_key (x : X) (k : string) (l : list X) :
  has_key kf k (delete kf x l) = has_key kf k l && negb (k =? kf x).
Proof.
  unfold delete, has_key. induction l as [|y l IH]; simpl; auto.
  destruct (kf y =? kf x) eqn:E; simpl.
  - rewrite IH. apply String.eqb_eq in E. rewrite E.
    destruct (kf x =? k) eqn:E2; simpl; auto.
    rewrite String.eqb_sym, E2. simpl. now rewrite andb_false_r.
  - rewrite IH. destruct (kf y =? k) eqn:E2; simpl; auto.
    apply String.eqb_eq in E2. rewrite <- E2, E. reflexivity.
Qed.

Lemma NoDup_delete (x : X) (l : list X) :
  NoDup (map kf l) -> NoDup (map kf (delete kf x l)).
Proof.
  unfold delete. induction l as [|y l IH]; simpl; auto.
  intros Hn. inversion Hn as [|? ? Hy Hn']; subst.
  destruct (negb (kf y =? kf x)); simpl; auto.
  constructor; auto. intros Hin. apply Hy.
  apply in_map_iff in Hin as (z & Ez & Hz). apply filter_In in Hz as (Hz & _).
  rewrite <- Ez. now apply in_map.
Qed.

Lemma NoDup_insert (x : X) (l1 l2 : list X) :
  NoDup (map kf (l1 ++ l2)) -> has_key kf (kf x) (l1 ++ l2) = false ->
  NoDup (map kf (l1 ++ x :: l2)).
Proof.
  intros Hn Hx. rewrite map_app in *. simpl.
  apply (Permutation.Permutation_NoDup (l := kf x :: map kf l1 ++ map kf l2)).
  - apply Permutation.Permutation_middle.
  - constructor; auto. rewrite <- map_app. now apply has_key_false.
Qed.

Lemma In_insert (x y : X) (l1 l2 : list X) :
  In y (l1 ++ x :: l2) <-> y = x \/ In y (l1 ++ l2).
Proof. rewrite !in_app_iff. simpl. intuition. Qed.

Section Walk.

Variable m : Missing.
Variables old U new : list X.
Hypothesis Hnew : NoDup (map kf new).
Hypothesis HU : forall k, has_key kf k U = true -> has_key kf k old = true.

(** The keys whose place is already final once the walk has passed [pre]:
    those left in place and those of [pre]. *)
Let done (pre : list X) (y : X) : bool :=
  has_key kf (kf y) U || has_key kf (kf y) pre.

Lemma done_snoc (pre : list X) (x : X) (l : list X) :
  (forall y, In y l -> kf y <> kf x) ->
  filter (done (pre ++ [x])) l = filter (done pre) l.
Proof.
  intros H. apply filter_ext_in. intros y Hy. unfold done.
  rewrite has_key_app. unfold has_key at 3. simpl.
  destruct (kf x =? kf y) eqn:E.
  - apply String.eqb_eq in E. symmetry in E. now elim (H y Hy).
  - now rewrite !orb_false_r.
Qed.

(** The operations the walk emits at the key [x], followed by [rest]. *)
Let ops_at (x : X) (rest : list X) : list (Op X) :=
  if negb (has_key kf (kf x) old) then [addedBefore x (next_kept kf U rest)]
  else if negb (has_key kf (kf x) U) then [movedBefore x (next_kept kf U rest)]
  else [].

Lemma find_split (p : X -> bool) (l : list X) (y : X) :
  find p l = Some y ->
  exists r1 r2, l = r1 ++ y :: r2 /\ p y = true /\ forall z, In z r1 -> p z = false.
Proof.
  induction l as [|z l IH]; simpl; [discriminate|].
  destruct (p z) eqn:E.
  - intros [= ->]. exists [], l. repeat split; auto. intros z [].
  - intros H. destruct (IH H) as (r1 & r2 & -> & Py & Hr).
    exists (z :: r1), r2. repeat split; auto. intros z' [<-|Hz]; auto.
Qed.

Lemma filter_all_false (p : X -> bool) (l : list X) :
  (forall z, In z l -> p z = false) -> filter p l = [].
Proof.
  induction l as [|z l IH]; simpl; intros H; auto.
  rewrite (H z (or_introl eq_refl)). apply IH. intros; apply H; now right.
Qed.

(** Where the operations at [x] put it, when [x] is not left in place:
    directly before the next key left in place, which separates the keys
    already placed from those still to come. *)
Lemma ops_at_shape (x : X) (rest pre L : list X) :
  pre ++ x :: rest = new ->
  has_key kf (kf x) U = false ->
  NoDup (map kf L) ->
  (forall y, In y L -> has_key kf (kf y) old = false -> has_key kf (kf y) pre = true) ->
  filter (done pre) L = filter (done pre) new ->
  exists l1 l2,
    delete kf x L = l1 ++ l2
    /\ apply_script kf m (ops_at x rest) L = l1 ++ x :: l2
    /\ filter (done pre) l1 = filter (done pre) pre
    /\ filter (done pre) l2 = filter (done pre) rest.
Proof.
  intros Hsplit EU HL Hfrom Hdone.
  assert (Hx : ~ In (kf x) (map kf pre ++ map kf rest)).
  { rewrite <- Hsplit, map_app in Hnew. simpl in Hnew. now apply NoDup_remove_2 in Hnew. }
  assert (Hxpre : has_key kf (kf x) pre = false).
  { apply has_key_false. intros H. apply Hx, in_app_iff. now left. }
  assert (Hdx : done pre x = false).
  { unfold done. now rewrite EU, Hxpre. }
  assert (Hapart : forall z, In z rest -> has_key kf (kf z) pre = false).
  { intros z Hz. apply has_key_false. intros Hin.
    rewrite <- Hsplit, map_app in Hnew. simpl in Hnew.
    apply NoDup_remove_1 in Hnew. rewrite <- map_app in Hnew.
    apply in_map_iff in Hin as (z' & Ez & Hz'). apply kf_inj in Ez. subst z'.
    apply (NoDup_map_inv kf) in Hnew.
    apply NoDup_app_remove_l in Hnew as Hn2.
    clear -Hnew Hz Hz'. induction pre as [|a pre' IH]; simpl in *; [easy|].
    inversion Hnew as [|? ? Ha Hn']; subst. destruct Hz' as [->|Hz'].
    - apply Ha, in_app_iff. now right.
    - now apply IH. }
  (* in both cases the key is first taken out, then put in *)
  assert (Happ : apply_script kf m (ops_at x rest) L
                 = place kf m x (next_kept kf U rest) (delete kf x L)).
  { unfold ops_at. rewrite EU. destruct (has_key kf (kf x) old) eqn:EO; simpl; auto.
    rewrite delete_no_key; auto.
    destruct (has_key kf (kf x) L) eqn:EL; auto.
    apply has_key_In in EL as (y & Hy & Ey).
    specialize (Hfrom y Hy). rewrite Ey, EO, Hxpre in Hfrom.
    now specialize (Hfrom eq_refl). }
  assert (Hd1 : filter (done pre) (delete kf x L) = filter (done pre) new).
  { rewrite <- Hdone. unfold delete. rewrite filter_twice.
    apply filter_ext. intros y. destruct (kf y =? kf x) eqn:E; simpl; auto.
    apply String.eqb_eq in E. unfold done in *. rewrite E.
    symmetry. exact Hdx. }
  assert (Hnewf : filter (done pre) new = filter (done pre) pre ++ filter (done pre) rest).
  { rewrite <- Hsplit, filter_app. simpl. now rewrite Hdx. }
  rewrite Happ. unfold next_kept.
  destruct (find (fun y => has_key kf (kf y) U) rest) as [y0|] eqn:Ef; simpl.
  - destruct (find_split _ _ _ Ef) as (r1 & r2 & Er & Hk0 & Hr1).
    assert (Hy0 : done pre y0 = true) by (unfold done; now rewrite Hk0).
    assert (Fr1 : filter (done pre) r1 = []).
    { apply filter_all_false. intros z Hz. unfold done. rewrite (Hr1 z Hz). simpl.
      apply Hapart. rewrite Er. apply in_app_iff. now left. }
    assert (Frest : filter (done pre) rest = y0 :: filter (done pre) r2).
    { rewrite Er, filter_app, Fr1. simpl. now rewrite Hy0. }
    assert (Hin0 : In y0 (delete kf x L)).
    { apply (proj1 (filter_In (done pre) y0 _)). rewrite Hd1, Hnewf, Frest.
      apply in_app_iff. right. now left. }
    destruct (insert_before_found (kf y0) x _ (In_has_key _ _ Hin0))
      as (l1 & y & l2 & El & Ky & H1 & ->).
    apply kf_inj in Ky. subst y.
    exists l1, (y0 :: l2). split; [exact El|]. split; [reflexivity|].
    rewrite El, Hnewf, Frest, filter_app in Hd1. simpl in Hd1. rewrite Hy0 in Hd1.
    apply split_at_unique in Hd1 as [E1 E2].
    + split; auto. simpl. rewrite Hy0, Frest. now f_equal.
    + intros H. apply filter_In in H as (H & _). apply In_has_key in H. congruence.
    + intros H. apply filter_In in H as (H & _).
      apply In_has_key in H. rewrite Hapart in H; [discriminate|].
      rewrite Er. apply in_app_iff. right. now left.
  - assert (Frest : filter (done pre) rest = []).
    { apply filter_all_false. intros z Hz. unfold done.
      rewrite (find_none _ _ Ef z Hz). simpl. now apply Hapart. }
    exists (delete kf x L), []. rewrite !app_nil_r. repeat split; auto.
    rewrite Hd1, Hnewf, Frest. now rewrite app_nil_r.
Qed.

Lemma walk_apply (rest : list X) :
  forall pre L,
    pre ++ rest = new ->
    NoDup (map kf L) ->
    (forall y, In y L -> has_key kf (kf y) new = true) ->
    (forall y, In y L -> has_key kf (kf y) old = false -> has_key kf (kf y) pre = true) ->
    filter (done pre) L = filter (done pre) new ->
    apply_script kf m (walk kf old U rest) L = new.
Proof.
  induction rest as [|x rest IH]; intros pre L Hsplit HL Hin Hfrom Hdone.
  - rewrite app_nil_r in Hsplit. subst pre. simpl.
    assert (E1 : filter (done new) L = L).
    { apply forallb_filter_id, forallb_forall. intros y Hy. unfold done.
      rewrite (Hin y Hy). apply orb_true_r. }
    assert (E2 : filter (done new) new = new).
    { apply forallb_filter_id, forallb_forall. intros y Hy. unfold done.
      rewrite (In_has_key y new Hy). apply orb_true_r. }
    congruence.
  - assert (Hx : ~ In (kf x) (map kf pre ++ map kf rest)).
    { rewrite <- Hsplit, map_app in Hnew. simpl in Hnew. now apply NoDup_remove_2 in Hnew. }
    assert (Hpre : forall y, In y pre -> kf y <> kf x).
    { intros y Hy E. apply Hx, in_app_iff. left. rewrite <- E. now apply in_map. }
    assert (Hrest : forall y, In y rest -> kf y <> kf x).
    { intros y Hy E. apply Hx, in_app_iff. right. rewrite <- E. now apply in_map. }
    assert (Hxnew : In x new) by (rewrite <- Hsplit; apply in_app_iff; right; now left).
    change (walk kf old U (x :: rest)) with (ops_at x rest ++ walk kf old U rest).
    rewrite apply_script_app.
    destruct (has_key kf (kf x) U) eqn:EU.
    + (* [x] is left in place *)
      assert (Hnone : ops_at x rest = []).
      { unfold ops_at. now rewrite (HU _ EU), EU. }
      rewrite Hnone. simpl.
      assert (Hsame : forall y, done (pre ++ [x]) y = done pre y).
      { intros y. unfold done. rewrite has_key_app. unfold has_key at 3. simpl.
        destruct (kf x =? kf y) eqn:E; [|now rewrite !orb_false_r].
        apply String.eqb_eq in E. rewrite <- E, EU. reflexivity. }
      apply (IH (pre ++ [x])); auto.
      * now rewrite <- app_assoc.
      * intros y Hy Ho. rewrite has_key_app, (Hfrom y Hy Ho). reflexivity.
      * rewrite (filter_ext _ _ Hsame L), (filter_ext _ _ Hsame new). exact Hdone.
    + (* [x] is added or moved *)
      destruct (ops_at_shape x rest pre L Hsplit EU HL Hfrom Hdone)
        as (l1 & l2 & El & -> & F1 & F2).
      assert (Hk : has_key kf (kf x) (l1 ++ l2) = false).
      { rewrite <- El, delete_has_key, String.eqb_refl. apply andb_false_r. }
      assert (Hsub : forall y, In y (l1 ++ l2) -> In y L).
      { intros y Hy. rewrite <- El in Hy. unfold delete in Hy.
        now apply filter_In in Hy. }
      assert (Hl12 : forall y, In y (l1 ++ l2) -> kf y <> kf x).
      { intros y Hy E. apply has_key_false in Hk. apply Hk. rewrite <- E. now apply in_map. }
      apply (IH (pre ++ [x])); auto.
      * now rewrite <- app_assoc.
      * apply NoDup_insert; auto. rewrite <- El. now apply NoDup_delete.
      * intros y Hy. apply In_insert in Hy as [->|Hy]; [now apply In_has_key|auto].
      * intros y Hy Ho. rewrite has_key_app. apply In_insert in Hy as [->|Hy].
        -- unfold has_key at 2. simpl. rewrite String.eqb_refl. apply orb_true_r.
        -- now rewrite (Hfrom y (Hsub y Hy) Ho).
      * rewrite <- Hsplit, !filter_app. simpl.
        assert (Dx : done (pre ++ [x]) x = true).
        { unfold done. rewrite has_key_app. unfold has_key at 3. simpl.
          rewrite String.eqb_refl. now rewrite !orb_true_r. }
        rewrite Dx.
        rewrite (done_snoc pre x l1), (done_snoc pre x l2),
                (done_snoc pre x pre), (done_snoc pre x rest); auto.
        -- now rewrite F1, F2.
        -- intros y Hy. apply Hl12, in_app_iff. now right.
        -- intros y Hy. apply Hl12, in_app_iff. now left.
Qed.

End Walk.

(** The whole script. *)
Lemma apply_diff (m : Missing) (old new : list X) :
  NoDup (map kf old) -> NoDup (map kf new) ->
  apply_script kf m (diffQueryOrderedChanges kf old new) old = new.
Proof.
  intros Ho Hn. unfold diffQueryOrderedChanges.
  rewrite apply_script_app, apply_removals, removals_keep_new.
  destruct (unmoved_subseq old new) as [Sn So].
  apply (walk_apply m old (unmoved kf old new) new Hn) with (pre := []); auto.
  - intros k Hk. apply has_key_In in Hk as (u & Hu & <-).
    apply In_has_key. eapply subseq_In; eauto.
  - clear -Ho. induction old as [|y old IH]; simpl; [constructor|].
    inversion Ho as [|? ? Hy Ho']; subst.
    destruct (has_key kf (kf y) new); simpl; auto.
    constructor; auto. intros Hin. apply Hy.
    apply in_map_iff in Hin as (z & Ez & Hz). apply filter_In in Hz as (Hz & _).
    rewrite <- Ez. now apply in_map.
  - intros y Hy. now apply filter_In in Hy.
  - intros y Hy Hf. apply filter_In in Hy as (Hy & _).
    apply In_has_key in Hy. congruence.
  - rewrite filter_twice.
    transitivity (filter (fun y => has_key kf (kf y) (unmoved kf old new)) old).
    + apply filter_ext_in. intros y Hy. unfold has_key at 3. simpl.
      rewrite orb_false_r.
      destruct (has_key kf (kf y) (unmoved kf old new)) eqn:E;
        [|now rewrite andb_false_r].
      apply has_key_In_inj in E. rewrite (In_has_key y new); auto.
      eapply subseq_In; eauto.
    + rewrite (subseq_filter _ _ So Ho).
      rewrite <- (subseq_filter _ _ Sn Hn) at 1.
      apply filter_ext. intros y. unfold has_key at 3. simpl. now rewrite orb_false_r.
Qed.

End Proofs.


End RoundTrip.

(** * The theorems at concrete inputs *)


Lemma one_subscription_at_a_time_witness :
  let r0 := observe sample_id (JCursor 0) sample_world in
  one_active (snd (fst (steps sample_id [Invalidate (JArray [])] (world r0) (session r0))))
             (snd (steps sample_id [Invalidate (JArray [])] (world r0) (session r0))).
Proof.
  apply (one_subscription_at_a_time sample_id (JCursor 0) [Invalidate (JArray [])] sample_world).
  reflexivity.
Defined.

Lemma diffArray_coverage_witness :
  exists cs,
    diffArray [mkEntry (JStr "A") (JNum 1); mkEntry (JStr "B") (JNum 2); mkEntry (JStr "C") (JNum 3)]
              [mkEntry (JStr "B") (JNum 2); mkEntry (JStr "A") (JNum 10); mkEntry (JStr "D") (JNum 4)]
    = (cs, None)
    /\ count (is_addedAt "D") cs = 1 /\ count (is_removed "C") cs = 1
    /\ count (is_changed "A") cs = 1 /\ count (is_removed "A") cs = 0.
Proof.
  destruct (diffArray_coverage
              [mkEntry (JStr "A") (JNum 1); mkEntry (JStr "B") (JNum 2); mkEntry (JStr "C") (JNum 3)]
              [mkEntry (JStr "B") (JNum 2); mkEntry (JStr "A") (JNum 10); mkEntry (JStr "D") (JNum 4)])
    as (cs & E & H).
  - repeat constructor; simpl; intuition discriminate.
  - repeat constructor; simpl; intuition discriminate.
  - repeat constructor.
  - repeat constructor.
  - exists cs. split; [exact E|].
    destruct (H "D") as (HD & _), (H "C") as (_ & HC & _), (H "A") as (_ & HA1 & HA2 & _).
    repeat split; assumption.
Defined.

Lemma attach_adds_each_document_once_witness :
  exists it1 i1 b1 it2 i2 b2,
    calls (step sample_id (Invalidate (JCursor 0)) sample_world initial_session)
    = [addedAt (JStr "a") it1 i1 b1; addedAt (JStr "b") it2 i2 b2].
Proof.
  apply (attach_adds_each_document_once sample_id 0 sample_world initial_session doc_a doc_b).
  - reflexivity.
  - intros c'. discriminate.
  - reflexivity.
  - reflexivity.
Defined.

Lemma traversal_leaves_cursor_rewound_witness :
  cursor_pos (cursor_at 0 (world (autorun_body sample_id (JCursor 0) sample_world initial_session)))
  = 0.
Proof.
  apply (traversal_leaves_cursor_rewound sample_id (JCursor 0) sample_world initial_session 0).
  right. reflexivity.
Defined.

Lemma unsupported_sequence_throws_witness :
  calls (step sample_id (Invalidate (JNum 3)) sample_world initial_session) = []
  /\ thrown (step sample_id (Invalidate (JNum 3)) sample_world initial_session)
     = Some unrecognized.
Proof.
  destruct (unsupported_sequence_throws sample_id (JNum 3) sample_world initial_session)
    as (H1 & H2 & _).
  - reflexivity.
  - intros elems. discriminate.
  - intros c. discriminate.
  - reflexivity.
  - split; assumption.
Defined.

Lemma array_entry_keys_witness :
  exists arr,
    fst (entries_of_array sample_id 0 [JStr "A"; JObject [("_id", JStr "x")]]) = Ok arr
    /\ length arr = 2.
Proof.
  destruct (array_entry_keys sample_id [JStr "A"; JObject [("_id", JStr "x")]] 0)
    as (arr & E & L & _).
  - repeat constructor; discriminate.
  - exists arr. rewrite E. split; [reflexivity|exact L].
Defined.

(** After the run on the same cursor, the removal of a document reaches no
    callback; before that run it reached [removed]. *)
Lemma same_cursor_rerun_ends_delivery_witness :
  let r0 := observe sample_id (JCursor 0) sample_world in
  let gone := Native 0 [doc_a] (NRemoved doc_b) in
  let r1 := step sample_id (Invalidate (JCursor 0)) (world r0) (session r0) in
  calls (step sample_id gone (world r0) (session r0)) = [removed (JStr "b") (JObject doc_b)]
  /\ calls r1 = []
  /\ activeObserveHandle (session r1) = Some 0
  /\ handles (world r1) = [mkHandle 0 false true]
  /\ calls (step sample_id gone (world r1) (session r1)) = [].
Proof.
  cbv zeta.
  destruct (same_cursor_rerun_ends_delivery sample_id 0
              (world (observe sample_id (JCursor 0) sample_world))
              (session (observe sample_id (JCursor 0) sample_world)))
    as (H1 & _ & _ & _ & _ & _ & H2); [reflexivity|reflexivity|].
  split; [reflexivity|]. split; [exact H1|]. split; [reflexivity|].
  split; [reflexivity|]. apply H2.
Defined.

(** * Further properties of [diffArray] *)

Section PositionMaps.

Let pos_step (pos : JsObj.t nat) (ie : nat * Entry) : JsObj.t nat :=
  JsObj.set (entry_key (snd ie)) (fst ie) pos.

Lemma positions_loop_last (l : list Entry) (start : nat) (acc : JsObj.t nat) (k : string) :
  JsObj.get k (fold_left pos_step (combine (seq start (length l)) l) acc)
  = match last_index_from start k l with
    | Some j => Some j
    | None => JsObj.get k acc
    end.
Proof.
  revert start acc. induction l as [|x l IH]; intros start acc; simpl; [reflexivity|].
  rewrite IH. destruct (last_index_from (S start) k l); [reflexivity|].
  unfold pos_step; simpl. rewrite JsObjFacts.get_set.
  now destruct (entry_key x =? k).
Qed.

(** A position map holds, under each key, the index of the last entry with
    that key. *)
Lemma positions_last (k : string) (arr : list Entry) :
  JsObj.get k (positions arr) = last_index k arr.
Proof.
  unfold last_index.
  transitivity (match last_index_from 0 k arr with
                | Some j => Some j
                | None => JsObj.get k []
                end).
  - exact (positions_loop_last arr 0 [] k).
  - now destruct (last_index_from 0 k arr).
Qed.

End PositionMaps.

Lemma last_index_from_none (s : nat) (k : string) (l : list Entry) :
  last_index_from s k l = None -> forall e, In e l -> entry_key e <> k.
Proof.
  revert s. induction l as [|x l IH]; intros s H e He; simpl in *; [contradiction|].
  destruct (last_index_from (S s) k l) eqn:E; [discriminate|].
  destruct (entry_key x =? k) eqn:Ex; [discriminate|].
  destruct He as [<-|He]; [now apply String.eqb_neq|eauto].
Qed.

Lemma last_index_from_some (s j : nat) (k : string) (l : list Entry) :
  last_index_from s k l = Some j ->
  (s <= j)%nat
  /\ (exists e, nth_error l (j - s) = Some e /\ entry_key e = k)
  /\ forall j' e', (j < j')%nat -> nth_error l (j' - s) = Some e' -> entry_key e' <> k.
Proof.
  revert s. induction l as [|x l IH]; intros s H; simpl in H; [discriminate|].
  destruct (last_index_from (S s) k l) as [j0|] eqn:E.
  - injection H as ->. destruct (IH _ E) as (Hle & (e & He & Ke) & Hlast).
    split; [lia|]. split.
    + exists e. replace (j - s) with (S (j - S s)) by lia. auto.
    + intros j' e' Hj. replace (j' - s) with (S (j' - S s)) by lia. simpl.
      now apply Hlast.
  - destruct (entry_key x =? k) eqn:Ex; [|discriminate]. injection H as <-.
    split; [lia|]. split.
    + exists x. rewrite Nat.sub_diag. split; [reflexivity|now apply String.eqb_eq].
    + intros j' e' Hj. replace (j' - s) with (S (j' - S s)) by lia. simpl.
      intros Hn. apply (last_index_from_none _ _ _ E). eapply nth_error_In; eauto.
Qed.

(** X1: under an ordinary property name, [posNew] and [posOld] map a key to
    the index of the LAST entry that has it (line 148 overwrites), and hold
    exactly the keys of the array. *)
Theorem positions_last_wins (k : string) (arr : list Entry) :
  ordinary_key k = true ->
  (forall i, JsObj.get k (positions arr) = Some i ->
     (exists e, nth_error arr i = Some e /\ entry_key e = k)
     /\ forall j e', (i < j)%nat -> nth_error arr j = Some e' -> entry_key e' <> k)
  /\ (JsObj.get k (positions arr) = None <-> has_entry k arr = false).
Proof.
  intros _. split.
  - intros i H. rewrite positions_last in H.
    destruct (last_index_from_some 0 i k arr H) as (_ & He & Hl).
    rewrite Nat.sub_0_r in He. split; auto.
    intros j e' Hj. specialize (Hl j e' Hj). now rewrite Nat.sub_0_r in Hl.
  - destruct (positions_spec arr) as (_ & _ & Hh). rewrite <- Hh.
    unfold JsObj.has. destruct (JsObj.get k (positions arr)); split; congruence.
Qed.

Lemma NoDup_key_index (arr : list Entry) (i j : nat) (a b : Entry) :
  NoDup (map entry_key arr) ->
  nth_error arr i = Some a -> nth_error arr j = Some b ->
  entry_key a = entry_key b -> i = j.
Proof.
  intros Hn Ha Hb E.
  apply (proj1 (NoDup_nth_error (map entry_key arr)) Hn).
  - rewrite length_map. apply nth_error_Some. congruence.
  - rewrite !nth_error_map, Ha, Hb. simpl. now rewrite E.
Qed.

Lemma positions_lookup (arr : list Entry) (i : nat) (e : Entry) :
  NoDup (map entry_key arr) ->
  nth_error arr i = Some e ->
  JsObj.get (entry_key e) (positions arr) = Some i.
Proof.
  intros Hn He.
  destruct (item_at_key (entry_key e) arr) as (j & e' & G & He' & Ke & _).
  { apply has_entry_In. exists e. split; auto. eapply nth_error_In; eauto. }
  rewrite G. f_equal. eapply NoDup_key_index; eauto.
Qed.

(** X2: when the keys of an array are unique, looking up the key of the
    entry at index [i] in its position map gives [i] back, the key being an
    ordinary property name. *)
Theorem positions_lookup_unique (arr : list Entry) (i : nat) (e : Entry) :
  NoDup (map entry_key arr) ->
  nth_error arr i = Some e ->
  ordinary_key (entry_key e) = true ->
  JsObj.get (entry_key e) (positions arr) = Some i
  /\ item_at arr (JsObj.get (entry_key e) (positions arr)) = Ok (i, item e).
Proof.
  intros Hn He _. rewrite (positions_lookup arr i e Hn He).
  split; [reflexivity|]. unfold item_at. now rewrite He.
Qed.

Lemma fst_then (a b : Emit) :
  fst (then_ a b) = match snd a with Some _ => fst a | None => fst a ++ fst b end.
Proof. unfold then_. now destruct (snd a). Qed.

(** What holds of the calls of every round holds of the calls of the loop,
    whether or not an exception ends it. *)
Lemma each_Forall {T : Type} (P : Call -> Prop) (f : T -> Result (list Call)) (l : list T) :
  (forall a cs, In a l -> f a = Ok cs -> Forall P cs) ->
  Forall P (fst (each f l)).
Proof.
  induction l as [|a l IH]; intros H; simpl; [constructor|].
  destruct (f a) as [cs|e] eqn:E; [|constructor].
  rewrite fst_then. simpl. apply Forall_app. split.
  - apply (H a); auto. now left.
  - apply IH. intros a' cs' Ha'. apply H. now right.
Qed.

Lemma item_at_entry (arr : list Entry) (k : string) (i : nat) (it : JsVal) :
  item_at arr (JsObj.get k (positions arr)) = Ok (i, it) -> entry_at arr k i it.
Proof.
  unfold item_at. destruct (JsObj.get k (positions arr)) as [n|] eqn:G; [|discriminate].
  destruct (nth_error arr n) as [e|] eqn:E; [|discriminate].
  intros [= <- <-]. split.
  - now rewrite <- positions_last.
  - exists e. repeat split; auto.
    destruct (positions_spec arr) as (_ & Hs & _).
    destruct (Hs k n G) as (e' & He' & Ke'). congruence.
Qed.

Section CallArguments.

Variables A B : list Entry.

Lemma observer_from_snapshots (op : Diff.Op JsVal) (cs : list Call) :
  observer A B op = Ok cs ->
  Forall (call_from_snapshots A B) cs /\ Forall (fun c => is_changed_call c = false) cs.
Proof.
  destruct op as [x|x b|x b]; simpl.
  - destruct (item_at A _) as [[j it]|e] eqn:E; [|discriminate].
    intros [= <-]. split; (constructor; [|constructor]); [|reflexivity].
    simpl. exists j. now apply item_at_entry.
  - destruct (item_at B _) as [[i it]|e] eqn:E; [|discriminate].
    intros [= <-]. split; (constructor; [|constructor]); [|reflexivity].
    simpl. now apply item_at_entry.
  - destruct (item_at B _) as [[i it]|e] eqn:E; [|discriminate].
    intros [= <-]. split; (constructor; [|constructor]); [|reflexivity].
    simpl. split; [now apply item_at_entry|apply positions_last].
Qed.

Lemma fire_changed_from_snapshots (k : string) (pos : nat) (cs : list Call) :
  In (k, pos) (positions B) ->
  fire_changed A B (k, pos) = Ok cs ->
  Forall (call_from_snapshots A B) cs /\ Forall (fun c => is_changed_call c = true) cs.
Proof.
  intros Hin. simpl. destruct (JsObj.has k (positions A)).
  - destruct (item_at A _) as [[j old]|e] eqn:EA; [|discriminate].
    destruct (positions_spec B) as (Hn & _ & _).
    pose proof (JsObjFacts.In_get k pos (positions B) Hn Hin) as G.
    destruct (nth_error B pos) as [en|] eqn:EB; [|discriminate].
    intros [= <-]. split; (constructor; [|constructor]); [|reflexivity].
    simpl. exists k, j, pos. split; [reflexivity|]. split.
    + now apply item_at_entry.
    + apply item_at_entry. rewrite G. unfold item_at. now rewrite EB.
  - intros [= <-]. split; constructor.
Qed.

Lemma diffArray_from_snapshots :
  Forall (call_from_snapshots A B) (fst (diffArray A B)).
Proof.
  unfold diffArray. rewrite fst_then.
  assert (H1 : Forall (call_from_snapshots A B)
                 (fst (each (observer A B)
                         (Diff.diffQueryOrderedChanges prop_key (map _id A) (map _id B))))).
  { apply each_Forall. intros op cs _ E. now apply observer_from_snapshots in E. }
  assert (H2 : Forall (call_from_snapshots A B) (fst (each (fire_changed A B) (positions B)))).
  { apply each_Forall. intros [k pos] cs Hin E.
    now apply (fire_changed_from_snapshots k pos cs Hin) in E. }
  destruct (snd (each (observer A B) _)); auto.
  apply Forall_app. auto.
Qed.

(** X5: every call [diffArray] makes takes its arguments from the two
    snapshots: [addedAt] and [movedTo] carry the index and the item of the
    last entry of the new snapshot under that key, [movedTo] the old position
    as from-index, [removed] the item of the old snapshot, and [changed] the
    key as a string followed by the old item and then the new item. *)
Theorem diffArray_arguments :
  Forall (call_from_snapshots A B) (fst (diffArray A B)).
Proof. exact diffArray_from_snapshots. Qed.

(** X4: in one run of [diffArray] every call of [changed] comes after all
    calls of [addedAt], [removed] and [movedTo]. *)
Theorem changed_calls_come_last :
  exists cs1 cs2,
    fst (diffArray A B) = cs1 ++ cs2
    /\ Forall (fun c => is_changed_call c = false) cs1
    /\ Forall (fun c => is_changed_call c = true) cs2.
Proof.
  unfold diffArray. rewrite fst_then.
  assert (H1 : Forall (fun c => is_changed_call c = false)
                 (fst (each (observer A B)
                         (Diff.diffQueryOrderedChanges prop_key (map _id A) (map _id B))))).
  { apply each_Forall. intros op cs _ E. now apply observer_from_snapshots in E. }
  assert (H2 : Forall (fun c => is_changed_call c = true)
                 (fst (each (fire_changed A B) (positions B)))).
  { apply each_Forall. intros [k pos] cs Hin E.
    now apply (fire_changed_from_snapshots k pos cs Hin) in E. }
  destruct (snd (each (observer A B) _)).
  - eexists _, []. rewrite app_nil_r. repeat split; auto.
  - eexists _, _. repeat split; eauto.
Qed.

(** X3: whatever the snapshots, duplicate keys included, as long as their
    keys are ordinary property names, [diffArray] calls [changed] exactly
    once for a key that both snapshots hold and never for any other key. *)
Theorem changed_once_per_common_key (k : string) :
  ordinary_keys A -> ordinary_keys B ->
  count (is_changed k) (fst (diffArray A B)) = one_if (has_entry k A && has_entry k B).
Proof.
  intros _ _.
  destruct (diffArray_calls A B) as (cs1 & cs2 & E & E1 & E2).
  rewrite E. simpl.
  destruct (each_observer A B (Diff.diffQueryOrderedChanges prop_key (map _id A) (map _id B)))
    as (cs & E' & Hc).
  { intros op Hop. now apply DiffFacts.diff_In in Hop. }
  rewrite E1 in E'. injection E' as <-.
  destruct (positions_spec B) as (Hn & Hs & Hh).
  destruct (each_fire_changed A B (positions B)) as (cs & E' & _ & Hd).
  { intros k' i Hk. apply Hs. now apply JsObjFacts.In_get. }
  rewrite E2 in E'. injection E' as <-.
  destruct (Hc k) as (_ & _ & _ & C1), (Hd k) as (C2 & _).
  rewrite count_app, C1, C2. simpl.
  pose proof (JsObjFacts.count_key (fun _ => has_entry k A) k (positions B) Hn) as Q.
  simpl in Q. rewrite Q. specialize (Hh k). unfold JsObj.has in Hh.
  destruct (JsObj.get k (positions B)); rewrite <- Hh;
    destruct (has_entry k A); reflexivity.
Qed.

End CallArguments.

(** ** Snapshots without a common key, and the empty snapshot *)

Lemma each_observer_kinds (A B : list Entry) (ops : list (Diff.Op JsVal)) :
  (forall op, In op ops ->
     match op with
     | Diff.removed x => In x (map _id A)
     | Diff.addedBefore x _ | Diff.movedBefore x _ => In x (map _id B)
     end) ->
  exists cs, each (observer A B) ops = (cs, None) /\ map kind cs = map op_kind ops.
Proof.
  induction ops as [|op ops IH]; intros Hin.
  - exists []. auto.
  - destruct IH as (cs & E & Hk); [intros; apply Hin; now right|].
    assert (Hop : match op with
                  | Diff.removed x => has_entry (prop_key x) A
                  | Diff.addedBefore x _ | Diff.movedBefore x _ => has_entry (prop_key x) B
                  end = true).
    { specialize (Hin op (or_introl eq_refl)).
      destruct op as [x|x b|x b]; rewrite <- has_entry_ids;
        apply DiffFacts.has_key_map_In; now apply in_map. }
    simpl. destruct op as [x|x b|x b];
      destruct (item_at_key _ _ Hop) as (i & e & _ & _ & _ & Hi);
      simpl; rewrite Hi, E; eexists; (split; [reflexivity|]); simpl; now rewrite Hk.
Qed.

Lemma each_fire_changed_none (A B : list Entry) (l : list (string * nat)) :
  (forall k i, In (k, i) l -> has_entry k A = false) ->
  each (fire_changed A B) l = ([], None).
Proof.
  induction l as [|[k i] l IH]; intros H; [reflexivity|].
  destruct (positions_spec A) as (_ & _ & Hh).
  simpl. rewrite Hh, (H k i) by now left.
  rewrite IH; [reflexivity|]. intros k' i' Hin. apply (H k' i'). now right.
Qed.

Lemma walk_all_new (old kept new : list JsVal) :
  (forall x, In x new -> Diff.has_key prop_key (prop_key x) old = false) ->
  map op_kind (Diff.walk prop_key old kept new) = repeat KAddedAt (length new).
Proof.
  induction new as [|x new IH]; intros H; simpl; [reflexivity|].
  rewrite (H x) by now left. simpl. f_equal. apply IH. intros y Hy. apply H. now right.
Qed.

Lemma removals_kinds (l : list JsVal) :
  map op_kind (map (@Diff.removed JsVal) l) = repeat KRemoved (length l).
Proof. induction l as [|x l IH]; simpl; [reflexivity|now rewrite IH]. Qed.

Lemma has_entry_id (e : Entry) (arr : list Entry) :
  In e arr -> has_entry (entry_key e) arr = true.
Proof. intros H. apply has_entry_In. eauto. Qed.

(** When no key of the old snapshot is a key of the new one, every old
    entry is removed and then every new entry is added: no [changed], no
    [movedTo]. *)
Lemma diffArray_disjoint (A B : list Entry) :
  (forall k, has_entry k A = true -> has_entry k B = false) ->
  exists cs, diffArray A B = (cs, None)
    /\ map kind cs = repeat KRemoved (length A) ++ repeat KAddedAt (length B).
Proof.
  intros Hd.
  destruct (each_observer_kinds A B
              (Diff.diffQueryOrderedChanges prop_key (map _id A) (map _id B)))
    as (cs & E & Hk).
  { intros op Hop. now apply DiffFacts.diff_In in Hop. }
  exists cs. split.
  - unfold diffArray. rewrite E, each_fire_changed_none.
    + unfold then_; simpl. now rewrite app_nil_r.
    + intros k i Hin. destruct (positions_spec B) as (Hn & _ & Hh).
      destruct (has_entry k A) eqn:EA; auto.
      specialize (Hd k EA). rewrite <- Hh in Hd. unfold JsObj.has in Hd.
      now rewrite (JsObjFacts.In_get k i _ Hn Hin) in Hd.
  - rewrite Hk. unfold Diff.diffQueryOrderedChanges. rewrite map_app.
    rewrite forallb_filter_id.
    + rewrite removals_kinds, walk_all_new, !length_map; [reflexivity|].
      intros x Hx. rewrite has_entry_ids.
      apply in_map_iff in Hx as (e & <- & He).
      destruct (has_entry (prop_key (_id e)) A) eqn:EA; auto.
      specialize (Hd _ EA). pose proof (has_entry_id e B He) as Q.
      unfold entry_key in Q. congruence.
    + apply forallb_forall. intros x Hx. rewrite has_entry_ids.
      apply in_map_iff in Hx as (e & <- & He).
      pose proof (has_entry_id e A He) as Q. unfold entry_key in Q.
      now rewrite (Hd _ Q).
Qed.

(** X6: against an empty old snapshot [diffArray] makes one [addedAt] call
    per entry of the new snapshot, in order, and when the keys are unique
    and ordinary property names each call carries the entry's own [_id],
    item and index. *)
Theorem diffArray_first_snapshot (B : list Entry) :
  NoDup (map entry_key B) ->
  ordinary_keys B ->
  exists cs, diffArray [] B = (cs, None)
    /\ Forall2 (fun ie c => exists before,
                  c = addedAt (_id (snd ie)) (item (snd ie)) (fst ie) before)
               (combine (seq 0 (length B)) B) cs.
Proof.
  intros Hn _. destruct (diffArray_from_empty B) as (cs & E & F).
  exists cs. split; [exact E|].
  pose proof (diffArray_from_snapshots [] B) as Hs. rewrite E in Hs. simpl in Hs.
  assert (G : forall l cs' start,
             Forall2 (fun e c => exists it i b, c = addedAt (_id e) it i b) l cs' ->
             Forall (call_from_snapshots [] B) cs' ->
             (forall j e, nth_error l j = Some e -> nth_error B (start + j) = Some e) ->
             Forall2 (fun ie c => exists before,
                        c = addedAt (_id (snd ie)) (item (snd ie)) (fst ie) before)
                     (combine (seq start (length l)) l) cs').
  { induction l as [|e l IH]; intros cs' start F2 Hall Hnth; inversion F2; subst; simpl.
    - constructor.
    - inversion Hall as [|? ? Hc Hall']; subst.
      destruct H1 as (it & i & b & ->). constructor.
      + simpl. exists b. simpl in Hc. destruct Hc as (_ & e' & He' & Ke' & <-).
        pose proof (Hnth 0 e eq_refl) as He. rewrite Nat.add_0_r in He.
        assert (i = start) by (eapply NoDup_key_index; eauto).
        subst i. congruence.
      + apply IH; auto. intros j e' Hj.
        replace (S start + j)%nat with (start + S j)%nat by lia.
        apply (Hnth (S j) e' Hj). }
  apply (G B cs 0 F Hs). auto.
Qed.

Lemma each_observer_removals (A l : list Entry) :
  NoDup (map entry_key A) ->
  (forall e, In e l -> In e A) ->
  each (observer A []) (map (@Diff.removed JsVal) (map _id l))
  = (map (fun e => removed (_id e) (item e)) l, None).
Proof.
  intros Hn. induction l as [|e l IH]; intros Hsub; [reflexivity|].
  simpl. destruct (In_nth_error A e (Hsub e (or_introl eq_refl))) as (i & Hi).
  pose proof (positions_lookup A i e Hn Hi) as G. unfold entry_key in G.
  rewrite G. unfold item_at. rewrite Hi, IH; [reflexivity|].
  intros e' He'. apply Hsub. now right.
Qed.

(** A snapshot with unique keys diffed against the empty one: one [removed]
    call per entry, in order, with the entry's own [_id] and item. *)
Lemma diffArray_to_empty (A : list Entry) :
  NoDup (map entry_key A) ->
  diffArray A [] = (map (fun e => removed (_id e) (item e)) A, None).
Proof.
  intros Hn. unfold diffArray, Diff.diffQueryOrderedChanges. simpl.
  rewrite app_nil_r, forallb_filter_id by now apply forallb_forall.
  rewrite each_observer_removals; auto. unfold then_; simpl. now rewrite app_nil_r.
Qed.

(** * Further properties of the autorun function *)

Section Materialize.

Variable Random_id : nat -> string.

Lemma entries_of_array_ok (elems : list JsVal) (n : nat) :
  Forall (fun doc => doc <> JNull /\ doc <> JUndefined) elems ->
  exists arr,
    entries_of_array Random_id n elems
    = (Ok arr, n + length (filter wants_random elems))
    /\ map item arr = elems.
Proof.
  revert n. induction elems as [|d elems IH]; intros n Hf.
  - exists []. simpl. now rewrite Nat.add_0_r.
  - inversion Hf as [|? ? [Hn Hu] Hf']; subst.
    assert (exists v, get_id d = Ok v) as (v & Ev).
    { destruct d; simpl; eauto; congruence. }
    simpl. unfold wants_random at 1. rewrite Ev.
    destruct (truthy v); simpl.
    + destruct (IH n Hf') as (arr & -> & Hi). eexists. split; [reflexivity|].
      simpl. now rewrite Hi.
    + destruct (IH (S n) Hf') as (arr & -> & Hi). eexists.
      split; [now rewrite Nat.add_succ_r|]. simpl. now rewrite Hi.
Qed.

Lemma entries_of_array_keyless (elems : list JsVal) (n : nat) :
  Forall (fun doc => wants_random doc = true) elems ->
  exists arr,
    entries_of_array Random_id n elems = (Ok arr, n + length elems)
    /\ map item arr = elems
    /\ map entry_key arr = map Random_id (seq n (length elems)).
Proof.
  revert n. induction elems as [|d elems IH]; intros n Hf.
  - exists []. simpl. now rewrite Nat.add_0_r.
  - inversion Hf as [|? ? Hd Hf']; subst.
    unfold wants_random in Hd. simpl.
    destruct (get_id d) as [v|e]; [|discriminate].
    apply negb_true_iff in Hd. rewrite Hd.
    destruct (IH (S n) Hf') as (arr & -> & Hi & Hk). eexists.
    split; [now rewrite Nat.add_succ_r|]. simpl. now rewrite Hi, Hk.
Qed.

Lemma entries_of_array_null (elems : list JsVal) (n : nat) (d : JsVal) :
  In d elems -> d = JNull \/ d = JUndefined ->
  exists n', entries_of_array Random_id n elems = (Throw TypeError, n').
Proof.
  intros Hin Hd. revert n. induction elems as [|x elems IH]; intros n; [contradiction|].
  simpl. destruct (get_id x) as [v|e] eqn:Ex.
  - assert (Hin' : In d elems).
    { destruct Hin as [<-|Hin]; auto. destruct Hd; subst; discriminate. }
    destruct (truthy v); simpl.
    + destruct (IH Hin' n) as (n' & ->). eauto.
    + destruct (IH Hin' (S n)) as (n' & ->). eauto.
  - exists n. destruct x; simpl in Ex; try discriminate; now injection Ex as <-.
Qed.

(** X8: a list whose elements all lack a truthy [_id] is materialized with
    one generated key per element, the results of consecutive calls of
    [Random.id()]; when [Random.id()] never repeats itself these keys are
    unique, and the items are the elements in order. *)
Theorem keyless_list_gets_unique_keys (elems : list JsVal) (n : nat) :
  (forall a b, Random_id a = Random_id b -> a = b) ->
  Forall (fun doc => wants_random doc = true) elems ->
  exists arr,
    entries_of_array Random_id n elems = (Ok arr, n + length elems)
    /\ map item arr = elems
    /\ map _id arr = map (fun i => JStr (Random_id i)) (seq n (length elems))
    /\ NoDup (map entry_key arr).
Proof.
  intros Hinj Hf.
  destruct (entries_of_array_keyless elems n Hf) as (arr & E & Hi & Hk).
  exists arr. repeat split; auto.
  - clear Hk Hi. revert n arr E. induction elems as [|d elems IH]; intros n arr E.
    + simpl in E. now injection E as <-.
    + inversion Hf as [|? ? Hd Hf']; subst.
      unfold wants_random in Hd. simpl in E.
      destruct (get_id d) as [v|e]; [|discriminate].
      apply negb_true_iff in Hd. rewrite Hd in E.
      destruct (entries_of_array_keyless elems (S n) Hf') as (arr' & E' & _).
      rewrite E' in E. injection E as <-. simpl. f_equal. now apply IH.
  - rewrite Hk. apply Finite.Injective_map_NoDup; [exact Hinj|apply seq_NoDup].
Qed.

End Materialize.

Lemma update_update {T : Type} (f g : T -> T) (l : list T) (i : nat) :
  update i f (update i g l) = update i (fun x => f (g x)) l.
Proof.
  revert i; induction l as [|x l IH]; intros [|i]; simpl; auto. now rewrite IH.
Qed.

(** As a whole, rewinding, fetching and rewinding again is one rewind. *)
Lemma traverse_is_rewind (c : nat) (w : World) :
  rewind c (snd (fetch c (rewind c w))) = rewind c w.
Proof.
  unfold rewind, fetch, with_cursors; simpl. now rewrite !update_update.
Qed.

Lemma rewind_rewind (c : nat) (w : World) : rewind c (rewind c w) = rewind c w.
Proof. unfold rewind, with_cursors; simpl. now rewrite update_update. Qed.

Lemma refetch_cursor (c : nat) (w : World) (s : Session) :
  lastSeq s = JCursor c ->
  refetch w s
  = (rewind c w,
     mkSession (JCursor c) (activeObserveHandle s)
               (Some (entries_of_docs (docs (cursor_at c w)))) (computation_stopped s)).
Proof.
  intros H. unfold refetch. rewrite H.
  pose proof (fetch_rewound c w) as Hf. pose proof (traverse_is_rewind c w) as Ht.
  destruct (fetch c (rewind c w)) as [ds w2]. simpl in *. now rewrite Hf, Ht.
Qed.

(** Fetching the last cursor again a second time changes nothing more. *)
Lemma refetch_idempotent (w : World) (s : Session) :
  refetch (fst (refetch w s)) (snd (refetch w s)) = refetch w s.
Proof.
  destruct (lastSeq s) eqn:E;
    try (unfold refetch at 2 3; rewrite E; simpl; unfold refetch; now rewrite E).
  rewrite (refetch_cursor ref w s E). simpl.
  erewrite (refetch_cursor ref (rewind ref w)) by reflexivity. simpl.
  now rewrite rewind_rewind, cursor_at_rewind.
Qed.

(** The autorun function reads the session only through [refetch]. *)
Lemma autorun_body_after_refetch (Random_id : nat -> string) (seq : JsVal)
      (w w' : World) (s s' : Session) :
  refetch w' s' = refetch w s ->
  autorun_body Random_id seq w' s' = autorun_body Random_id seq w s.
Proof. intros H. unfold autorun_body. now rewrite H. Qed.

Section SessionProperties.

Variable Random_id : nat -> string.

(** X17: a value that is truthy but neither an array nor a cursor makes the
    run throw and is then forgotten: the next run behaves as if the failed
    run had not happened. *)
Theorem unrecognized_run_is_invisible (seq seq' : JsVal) (w : World) (s : Session) :
  truthy seq = true ->
  (forall elems, seq <> JArray elems) ->
  (forall c, seq <> JCursor c) ->
  let r := autorun_body Random_id seq w s in
  lastSeq (session r) = lastSeq s
  /\ activeObserveHandle (session r) = activeObserveHandle s
  /\ autorun_body Random_id seq' (world r) (session r) = autorun_body Random_id seq' w s.
Proof.
  intros Ht Ha Hc r.
  assert (Hr : r = mkRun [] (Some unrecognized) (fst (refetch w s)) (snd (refetch w s))).
  { subst r. unfold autorun_body. destruct (refetch w s) as [w1 s1]. rewrite Ht. simpl.
    destruct seq; simpl in *; try discriminate; auto.
    - now elim (Ha elems).
    - now elim (Hc ref). }
  rewrite Hr. simpl. destruct (refetch_session w s) as (Hl & Hh & _).
  repeat split; auto.
  apply autorun_body_after_refetch, refetch_idempotent.
Qed.

(** X18: a run that finds the cursor of the previous run again leaves
    [lastSeqArray] undefined (line 120), and the next run does not notice:
    it behaves as if the run on the same cursor had not happened. *)
Theorem same_cursor_run_is_invisible (c : nat) (seq' : JsVal) (w : World) (s : Session) :
  lastSeq s = JCursor c ->
  let r := autorun_body Random_id (JCursor c) w s in
  lastSeqArray (session r) = None
  /\ autorun_body Random_id seq' (world r) (session r) = autorun_body Random_id seq' w s.
Proof.
  intros Hl r.
  assert (Hr : r = mkRun [] None (rewind c w)
                     (mkSession (JCursor c) (activeObserveHandle s) None
                                (computation_stopped s))).
  { subst r. unfold autorun_body. rewrite (refetch_cursor c w s Hl). simpl.
    now rewrite Nat.eqb_refl. }
  rewrite Hr. simpl. split; [reflexivity|].
  apply autorun_body_after_refetch.
  rewrite (refetch_cursor c w s Hl).
  erewrite (refetch_cursor c (rewind c w)) by reflexivity. simpl.
  now rewrite rewind_rewind, cursor_at_rewind.
Qed.

(** X12: a falsy value (undefined, null, false, 0, the empty string) ends
    the sequence: when the keys of the last snapshot are unique, the run calls
    [removed] once for each of its entries, in order, with the entry's [_id]
    and item, and the empty array becomes the last snapshot. *)
Theorem falsy_run_removes_everything (seq : JsVal) (w : World) (s : Session) (A : list Entry) :
  truthy seq = false ->
  lastSeqArray (snd (refetch w s)) = Some A ->
  NoDup (map entry_key A) ->
  autorun_body Random_id seq w s
  = mkRun (map (fun e => removed (_id e) (item e)) A) None (fst (refetch w s))
          (mkSession seq (activeObserveHandle s) (Some []) (computation_stopped s)).
Proof.
  intros Ht HA Hn. unfold autorun_body.
  destruct (refetch_session w s) as (_ & Hh & Hst).
  destruct (refetch w s) as [w1 s1]. simpl in *.
  rewrite Ht. simpl. unfold diff_and_commit. rewrite HA. simpl.
  rewrite (diffArray_to_empty A Hn). simpl. unfold commit. now rewrite Hh, Hst.
Qed.

(** X10: an array with a null or undefined element makes the run throw a
    TypeError before any callback is called; the last sequence and the
    observe handles stay as they were. *)
Theorem null_element_throws (elems : list JsVal) (d : JsVal) (w : World) (s : Session) :
  In d elems -> d = JNull \/ d = JUndefined ->
  let r := autorun_body Random_id (JArray elems) w s in
  calls r = [] /\ thrown r = Some TypeError
  /\ session r = snd (refetch w s)
  /\ lastSeq (session r) = lastSeq s
  /\ handles (world r) = handles w.
Proof.
  intros Hin Hd r. subst r. unfold autorun_body.
  pose proof (refetch_handles w s) as Hh.
  destruct (refetch_session w s) as (Hl & _ & _).
  destruct (refetch w s) as [w1 s1]. simpl in *.
  destruct (entries_of_array_null Random_id elems (random_calls w1) d Hin Hd) as (n' & ->).
  simpl. auto.
Qed.

Lemma array_run (elems : list JsVal) (arr : list Entry) (n : nat) (w : World) (s : Session) :
  (forall c, lastSeq s <> JCursor c) ->
  entries_of_array Random_id (random_calls w) elems = (Ok arr, n) ->
  autorun_body Random_id (JArray elems) w s
  = diff_and_commit (JArray elems) arr (mkWorld (cursors w) (handles w) n) s.
Proof.
  intros Hl E. unfold autorun_body. rewrite (refetch_not_cursor w s Hl). simpl.
  now rewrite E.
Qed.

(** X9: a list of elements without a truthy [_id] is replaced wholesale at
    every run, provided [Random.id()] never repeats itself: the first run
    calls [addedAt] once per element, and a second run on the very same list
    calls [removed] once per element and then [addedAt] once per element,
    never [changed] and never [movedTo]. *)
Theorem keyless_list_is_replaced (elems : list JsVal) (w : World) :
  (forall a b, Random_id a = Random_id b -> a = b) ->
  Forall (fun doc => wants_random doc = true) elems ->
  let r0 := observe Random_id (JArray elems) w in
  let r1 := step Random_id (Invalidate (JArray elems)) (world r0) (session r0) in
  thrown r0 = None /\ thrown r1 = None
  /\ map kind (calls r0) = repeat KAddedAt (length elems)
  /\ map kind (calls r1)
     = repeat KRemoved (length elems) ++ repeat KAddedAt (length elems).
Proof.
  intros Hinj Hf r0 r1.
  destruct (entries_of_array_keyless Random_id elems (random_calls w) Hf)
    as (arr0 & E0 & Hi0 & Hk0).
  set (n1 := random_calls w + length elems) in *.
  destruct (entries_of_array_keyless Random_id elems n1 Hf) as (arr1 & E1 & Hi1 & Hk1).
  assert (L0 : length arr0 = length elems).
  { transitivity (length (map item arr0)); [now rewrite length_map|now rewrite Hi0]. }
  assert (L1 : length arr1 = length elems).
  { transitivity (length (map item arr1)); [now rewrite length_map|now rewrite Hi1]. }
  destruct (diffArray_disjoint [] arr0) as (cs0 & D0 & K0); [discriminate|].
  destruct (diffArray_disjoint arr0 arr1) as (cs1 & D1 & K1).
  { intros k Hk. destruct (has_entry k arr1) eqn:Hk1'; auto. exfalso.
    apply has_entry_In in Hk as (e0 & He0 & <-).
    apply has_entry_In in Hk1' as (e1 & He1 & Ee).
    apply (in_map entry_key) in He0, He1. rewrite Hk0 in He0. rewrite Hk1 in He1.
    apply in_map_iff in He0 as (i & Ei & Hi), He1 as (j & Ej & Hj).
    apply in_seq in Hi, Hj.
    assert (i = j) by (apply Hinj; congruence). unfold n1 in Hj. lia. }
  assert (R0 : r0 = mkRun cs0 None (mkWorld (cursors w) (handles w) n1)
                          (mkSession (JArray elems) None (Some arr0) false)).
  { subst r0. unfold observe.
    rewrite (array_run elems arr0 n1 w initial_session); [|discriminate|exact E0].
    unfold diff_and_commit. simpl. now rewrite D0. }
  assert (R1 : calls r1 = cs1 /\ thrown r1 = None).
  { subst r1. rewrite R0. simpl.
    erewrite array_run; [|discriminate|exact E1].
    unfold diff_and_commit. simpl. rewrite D1. auto. }
  destruct R1 as [C1 T1]. rewrite C1, T1, R0. simpl. rewrite K0, K1, L0, L1. auto.
Qed.

Lemma random_diff_and_commit (seq : JsVal) (arr : list Entry) (w : World) (s : Session) :
  random_calls (world (diff_and_commit seq arr w s)) = random_calls w.
Proof. unfold diff_and_commit. destruct (snd (diffArray _ arr)); reflexivity. Qed.

Lemma random_attach (c : nat) (w : World) (s : Session) :
  random_calls (world (attach c w s)) = random_calls w.
Proof.
  unfold attach. destruct (fetch c (rewind c w)) as [ds w2] eqn:Ef.
  assert (random_calls w2 = random_calls w).
  { replace w2 with (snd (fetch c (rewind c w))) by now rewrite Ef. reflexivity. }
  destruct (snd (diffArray _ _)); simpl; auto.
  destruct (activeObserveHandle s); simpl; auto.
Qed.

Lemma random_refetch (w : World) (s : Session) :
  random_calls (fst (refetch w s)) = random_calls w.
Proof. unfold refetch. destruct (lastSeq s); reflexivity. Qed.

(** X11: [Random.id()] is called only to materialize an array, once for
    each element whose [_id] is absent or falsy; a run on a falsy value, on a
    cursor or on an unsupported value calls it not at all. *)
Theorem random_ids_drawn (seq : JsVal) (w : World) (s : Session) :
  (forall elems, seq = JArray elems ->
     Forall (fun doc => doc <> JNull /\ doc <> JUndefined) elems) ->
  random_calls (world (autorun_body Random_id seq w s))
  = random_calls w
    + match seq with
      | JArray elems => length (filter wants_random elems)
      | _ => 0
      end.
Proof.
  intros Ha. unfold autorun_body.
  pose proof (random_refetch w s) as Hr.
  destruct (refetch w s) as [w1 s1]. simpl in Hr.
  destruct seq; simpl; rewrite ?random_diff_and_commit, ?Nat.add_0_r; auto.
  - destruct b; simpl; rewrite ?random_diff_and_commit; auto.
  - destruct (negb (n =? 0)%Z); simpl; rewrite ?random_diff_and_commit; auto.
  - destruct (negb (s0 =? "")); simpl; rewrite ?random_diff_and_commit; auto.
  - destruct (entries_of_array_ok Random_id elems (random_calls w1) (Ha elems eq_refl))
      as (arr & -> & _).
    rewrite random_diff_and_commit. simpl. now rewrite Hr.
  - destruct (same_cursor (lastSeq s1) ref); simpl; rewrite ?random_attach; auto.
Qed.

(** ** The last snapshot is defined whenever it is diffed *)

Lemma refetch_defined (w : World) (s : Session) :
  baseline_defined s -> lastSeqArray (snd (refetch w s)) <> None.
Proof.
  intros H. unfold refetch. destruct (lastSeq s) eqn:E; simpl; try discriminate;
    intros Hn; destruct (H Hn) as (c & Hc); congruence.
Qed.

Lemma autorun_baseline (seq : JsVal) (w : World) (s : Session) :
  baseline_defined s -> baseline_defined (session (autorun_body Random_id seq w s)).
Proof.
  intros H. unfold autorun_body.
  pose proof (refetch_defined w s H) as Hd.
  destruct (refetch w s) as [w1 s1]. simpl in Hd.
  assert (H1 : baseline_defined s1) by (intros Hn; contradiction).
  assert (Hdc : forall q arr w2, baseline_defined (session (diff_and_commit q arr w2 s1))).
  { intros q arr w2. unfold diff_and_commit.
    destruct (snd (diffArray _ arr)); simpl; auto. intros Hn. discriminate. }
  destruct (truthy seq); simpl; auto.
  destruct seq; simpl; auto.
  - destruct (entries_of_array Random_id (random_calls w1) elems) as [[arr|e] n]; simpl; auto.
  - destruct (same_cursor (lastSeq s1) ref).
    + simpl. intros _. exists ref. reflexivity.
    + unfold attach. destruct (fetch ref (rewind ref w1)) as [ds w2].
      destruct (snd (diffArray _ _)); simpl; auto. intros Hn. discriminate.
Qed.

Lemma step_baseline (t : Trigger) (w : World) (s : Session) :
  baseline_defined s -> baseline_defined (session (step Random_id t w s)).
Proof.
  intros H. destruct t as [seq|c ds ev|]; simpl; auto.
  destruct (computation_stopped s); auto. now apply autorun_baseline.
Qed.

Lemma steps_baseline (ts : list Trigger) (w : World) (s : Session) :
  baseline_defined s -> baseline_defined (snd (steps Random_id ts w s)).
Proof.
  revert w s. induction ts as [|t ts IH]; intros w s H; simpl; auto.
  specialize (IH (world (step Random_id t w s)) _ (step_baseline t w s H)).
  destruct (steps Random_id ts _ _) as [[cs w'] s']. exact IH.
Qed.

(** X19: whatever happens to a session, [lastSeqArray] is undefined only
    while [lastSeq] is a cursor, so that the next run fetches it again before
    it diffs: [diffArray] is never given an undefined last snapshot. *)
Theorem last_snapshot_defined_when_diffed (seq : JsVal) (ts : list Trigger) (w w' : World) :
  let r := observe Random_id seq w in
  let s' := snd (steps Random_id ts (world r) (session r)) in
  baseline_defined s' /\ lastSeqArray (snd (refetch w' s')) <> None.
Proof.
  intros r s'.
  assert (H : baseline_defined s').
  { subst s'. apply steps_baseline. subst r. unfold observe.
    apply autorun_baseline. intros Hn. discriminate. }
  split; [exact H|now apply refetch_defined].
Qed.

(** ** After a cursor is attached *)

Lemma deliver_stopped (c : nat) (ev : NativeEv) (hs : list Handle) :
  (forall i h, nth_error hs i = Some h -> h_stopped h = true) ->
  flat_map (fun h => if (h_cursor h =? c)%nat && negb (h_stopped h)
                     then native_callbacks (h_initial h) ev else []) hs = [].
Proof.
  induction hs as [|h hs IH]; intros H; simpl; [reflexivity|].
  rewrite (H 0 h eq_refl), andb_false_r. simpl.
  apply IH. intros i h' Hi. apply (H (S i) h' Hi).
Qed.

Lemma stop_active_all_stopped (w w' : World) (s : Session) :
  one_active w s -> handles w' = handles w ->
  forall i h,
    nth_error (handles (match activeObserveHandle s with
                        | Some a => handle_stop a w'
                        | None => w'
                        end)) i = Some h ->
    h_stopped h = true.
Proof.
  intros Inv Hw i h. destruct (activeObserveHandle s) as [a|] eqn:Ea; simpl.
  - rewrite nth_error_update, Hw.
    destruct (a =? i)%nat eqn:Eai.
    + destruct (nth_error (handles w) i); simpl; [intros [= <-]; reflexivity|discriminate].
    + intros Hn. destruct (h_stopped h) eqn:Hst; auto.
      specialize (Inv i h Hn Hst). rewrite Ea in Inv. injection Inv as ->.
      now rewrite Nat.eqb_refl in Eai.
  - rewrite Hw. intros Hn. destruct (h_stopped h) eqn:Hst; auto.
    specialize (Inv i h Hn Hst). rewrite Ea in Inv. discriminate.
Qed.

(** X15: once a run has attached a cursor that was not the last sequence,
    every native event of that cursor reaches the callbacks exactly once, in
    the form of lines 98-110 with [initial] false, and the events of any
    other cursor reach them not at all: no earlier handle is still
    delivering. *)
Theorem attached_cursor_is_forwarded_once (c : nat) (w : World) (s : Session) :
  one_active w s ->
  computation_stopped s = false ->
  same_cursor (lastSeq s) c = false ->
  let r := step Random_id (Invalidate (JCursor c)) w s in
  thrown r = None
  /\ lastSeq (session r) = JCursor c
  /\ forall c' ev,
       deliver c' ev (world r)
       = if (c =? c')%nat then native_callbacks false ev else [].
Proof.
  intros Inv Hs Hsame r. subst r. unfold step. rewrite Hs.
  assert (Inv0 : one_active (stop_handles w) s).
  { apply all_stopped_one_active, all_stopped_stop_handles. }
  clear Inv. revert Inv0. generalize (stop_handles w). clear w. intros w Inv.
  unfold autorun_body.
  pose proof (refetch_handles w s) as Hh.
  destruct (refetch_session w s) as (Hl & Ha & _).
  destruct (refetch w s) as [w1 s1]. simpl in *.
  rewrite Hl, Hsame. unfold attach.
  destruct (fetch c (rewind c w1)) as [ds w2] eqn:Ef.
  assert (Hw2 : handles (rewind c w2) = handles w).
  { replace w2 with (snd (fetch c (rewind c w1))) by now rewrite Ef. exact Hh. }
  destruct (diffArray_calls (or_empty (lastSeqArray s1)) (entries_of_docs ds))
    as (cs1 & cs2 & -> & _ & _).
  simpl. rewrite Ha.
  pose proof (stop_active_all_stopped w (rewind c w2) s Inv Hw2) as Hall.
  set (w4 := match activeObserveHandle s with
             | Some a => handle_stop a (rewind c w2)
             | None => rewind c w2
             end) in *.
  split; [reflexivity|]. split; [reflexivity|].
  intros c' ev. unfold deliver, set_initial, cursor_observe, with_handles. simpl.
  rewrite update_last. simpl. rewrite flat_map_app, (deliver_stopped c' ev _ Hall). simpl.
  rewrite andb_true_r, app_nil_r. reflexivity.
Qed.

(** ** What a run leaves alone *)

(** X20: a run never changes the documents of any cursor, and it moves the
    read position of no cursor other than the last sequence and the new
    one. *)
Theorem run_reads_cursors_only (seq : JsVal) (w : World) (s : Session) (c : nat) :
  let r := autorun_body Random_id seq w s in
  docs (cursor_at c (world r)) = docs (cursor_at c w)
  /\ (lastSeq s <> JCursor c -> seq <> JCursor c ->
      cursor_at c (world r) = cursor_at c w).
Proof.
  intros r. subst r. unfold autorun_body.
  destruct (refetch w s) as [w1 s1] eqn:Er.
  assert (Hd1 : docs (cursor_at c w1) = docs (cursor_at c w)).
  { unfold refetch in Er. destruct (lastSeq s); try (injection Er as <- <-; reflexivity).
    injection Er as <- <-. apply traverse_docs. }
  assert (Hc1 : lastSeq s <> JCursor c -> cursor_at c w1 = cursor_at c w).
  { intros Hn. unfold refetch in Er.
    destruct (lastSeq s) eqn:El; try (injection Er as <- <-; reflexivity).
    injection Er as <- <-. apply traverse_other. congruence. }
  assert (Hdc : forall q arr n,
             cursor_at c (world (diff_and_commit q arr (mkWorld (cursors w1) (handles w1) n) s1))
             = cursor_at c w1).
  { intros q arr n. now rewrite (cursor_at_cursors c _ _ (cursors_diff_and_commit _ _ _ _)). }
  destruct (truthy seq) eqn:Ht; simpl.
  - destruct seq; simpl; auto.
    + destruct (entries_of_array Random_id (random_calls w1) elems) as [[arr|e] n]; simpl.
      * rewrite Hdc. auto.
      * unfold cursor_at in *. simpl. auto.
    + destruct (same_cursor (lastSeq s1) ref); simpl; auto.
      rewrite (cursor_at_cursors c _ _ (cursors_attach ref w1 s1)).
      rewrite traverse_docs. split; auto.
      intros Hn Hs. rewrite traverse_other by congruence. auto.
  - rewrite (cursor_at_cursors c _ _ (cursors_diff_and_commit _ _ _ _)). auto.
Qed.

(** ** From a cursor to another sequence *)

Lemma entries_of_docs_keys (ds : list Doc) :
  map entry_key (entries_of_docs ds) = map (fun d => prop_key (field "_id" d)) ds.
Proof. unfold entries_of_docs. now rewrite map_map. Qed.

(** X13: when the last sequence was a cursor and the new value is falsy,
    the run removes what the cursor holds NOW, not what it held when it was
    attached: with unique document ids it calls [removed] once for each
    current document, in order, and leaves the cursor rewound. *)
Theorem cursor_then_falsy_removes_current_documents
        (seq : JsVal) (c : nat) (w : World) (s : Session) :
  lastSeq s = JCursor c ->
  truthy seq = false ->
  NoDup (map (fun d => prop_key (field "_id" d)) (docs (cursor_at c w))) ->
  let r := autorun_body Random_id seq w s in
  calls r = map (fun d => removed (field "_id" d) (JObject d)) (docs (cursor_at c w))
  /\ thrown r = None
  /\ world r = rewind c w
  /\ lastSeqArray (session r) = Some [].
Proof.
  intros Hl Ht Hn r. subst r. unfold autorun_body.
  rewrite (refetch_cursor c w s Hl), Ht. simpl. unfold diff_and_commit. simpl.
  rewrite diffArray_to_empty by now rewrite entries_of_docs_keys.
  simpl. unfold entries_of_docs. rewrite map_map. auto.
Qed.

(** X14: the calls of a run that attaches a cursor are exactly the calls of
    [diffArray] on the last snapshot and the documents the cursor holds:
    however many documents there are, the notifications that
    [cursor.observe] makes of them while [initial] is true add no call. *)
Theorem attach_calls_are_the_diff (c : nat) (w : World) (s : Session) :
  same_cursor (lastSeq s) c = false ->
  let r := autorun_body Random_id (JCursor c) w s in
  let w1 := fst (refetch w s) in
  let s1 := snd (refetch w s) in
  calls r = fst (diffArray (or_empty (lastSeqArray s1))
                           (entries_of_docs (docs (cursor_at c w1))))
  /\ thrown r = None
  /\ length (initial_adds 0 (docs (cursor_at c w1))) = length (docs (cursor_at c w1)).
Proof.
  intros Hsame r w1 s1. subst r w1 s1. unfold autorun_body.
  destruct (refetch_session w s) as (Hl & _ & _).
  destruct (refetch w s) as [w1 s1]. simpl in *.
  rewrite Hl, Hsame. unfold attach.
  pose proof (fetch_rewound c w1) as Hf.
  pose proof (cursor_at_rewind c (snd (fetch c (rewind c w1)))) as Hc.
  pose proof (traverse_docs c c w1) as Hd.
  destruct (fetch c (rewind c w1)) as [ds w2]. simpl in *. subst ds.
  destruct (diffArray_calls (or_empty (lastSeqArray s1))
                            (entries_of_docs (docs (cursor_at c w1))))
    as (cs1 & cs2 & E & _ & _).
  rewrite E. simpl.
  assert (Hlen : forall (l : list Doc) i, length (initial_adds i l) = length l).
  { induction l as [|d l IH]; intros i; simpl; auto. }
  split; [|split; [reflexivity|apply Hlen]].
  unfold cursor_observe.
  replace (docs (cursor_at c (match activeObserveHandle s1 with
                              | Some h => handle_stop h (rewind c w2)
                              | None => rewind c w2
                              end)))
    with (docs (cursor_at c (rewind c w2)))
    by (destruct (activeObserveHandle s1); reflexivity).
  simpl. now rewrite initial_batch_suppressed, app_nil_r.
Qed.

End SessionProperties.

(** * Snapshots with the same keys in the same order *)

Section SameKeys.

Context {X : Type}.
Variable kf : X -> string.

Lemma filter_none (p : X -> bool) (l : list X) :
  (forall x, In x l -> p x = false) -> filter p l = [].
Proof.
  induction l as [|x l IH]; intros H; simpl; [reflexivity|].
  rewrite (H x) by now left. apply IH. intros y Hy. apply H. now right.
Qed.

Lemma unmoved_same_keys (old new : list X) :
  map kf old = map kf new -> Diff.unmoved kf old new = new.
Proof.
  revert new. induction old as [|x old IH]; intros [|y new] E; try discriminate; auto.
  simpl in E. injection E as Ex E.
  change (Diff.unmoved kf (x :: old) (y :: new))
    with (if kf x =? kf y then y :: Diff.unmoved kf old new
          else Diff.longer (Diff.unmoved kf old (y :: new)) (Diff.unmoved kf (x :: old) new)).
  rewrite Ex, String.eqb_refl. f_equal. now apply IH.
Qed.

Lemma walk_all_kept (old kept l : list X) :
  (forall x, In x l -> Diff.has_key kf (kf x) old = true) ->
  (forall x, In x l -> Diff.has_key kf (kf x) kept = true) ->
  Diff.walk kf old kept l = [].
Proof.
  induction l as [|x l IH]; intros Ho Hk; simpl; [reflexivity|].
  rewrite (Ho x), (Hk x) by now left. simpl.
  apply IH; intros y Hy; [apply Ho|apply Hk]; now right.
Qed.

(** The diff of two sequences with the same keys in the same order is empty. *)
Lemma diff_same_keys (old new : list X) :
  map kf old = map kf new -> Diff.diffQueryOrderedChanges kf old new = [].
Proof.
  intros E. unfold Diff.diffQueryOrderedChanges.
  rewrite filter_none, (unmoved_same_keys old new E), walk_all_kept; auto.
  - intros x Hx. apply DiffFacts.has_key_map_In. rewrite E. now apply in_map.
  - intros x Hx. apply DiffFacts.has_key_map_In. now apply in_map.
  - intros x Hx. apply negb_false_iff, DiffFacts.has_key_map_In.
    rewrite <- E. now apply in_map.
Qed.

End SameKeys.

Lemma set_fresh {V : Type} (k : string) (v : V) (o : JsObj.t V) :
  JsObj.get k o = None -> JsObj.set k v o = o ++ [(k, v)].
Proof.
  induction o as [|[k0 v0] o IH]; simpl; [reflexivity|].
  destruct (k0 =? k); [discriminate|]. intros H. now rewrite IH.
Qed.

Lemma positions_loop_unique (l : list Entry) (start : nat) (acc : JsObj.t nat) :
  NoDup (map entry_key l) ->
  (forall e, In e l -> JsObj.get (entry_key e) acc = None) ->
  fold_left (fun pos ie => JsObj.set (entry_key (snd ie)) (fst ie) pos)
            (combine (seq start (length l)) l) acc
  = acc ++ map (fun ie => (entry_key (snd ie), fst ie)) (combine (seq start (length l)) l).
Proof.
  revert start acc. induction l as [|x l IH]; intros start acc Hn Hacc; simpl.
  - now rewrite app_nil_r.
  - inversion Hn as [|? ? Hx Hn']; subst.
    rewrite IH; auto.
    + rewrite set_fresh by (apply Hacc; now left). now rewrite <- app_assoc.
    + intros e He. rewrite JsObjFacts.get_set.
      destruct (entry_key x =? entry_key e) eqn:E.
      * apply String.eqb_eq in E. elim Hx. rewrite E. now apply in_map.
      * apply Hacc. now right.
Qed.

(** With unique keys a position map lists the keys in the order of the
    array, each with its index. *)
Lemma positions_unique (arr : list Entry) :
  NoDup (map entry_key arr) ->
  positions arr
  = map (fun ie => (entry_key (snd ie), fst ie)) (combine (seq 0 (length arr)) arr).
Proof.
  intros Hn. unfold positions. now rewrite positions_loop_unique.
Qed.

Lemma each_fire_changed_same (A B la lb : list Entry) (start : nat) :
  NoDup (map entry_key A) ->
  map entry_key la = map entry_key lb ->
  (forall j a, nth_error la j = Some a -> nth_error A (start + j) = Some a) ->
  (forall j b, nth_error lb j = Some b -> nth_error B (start + j) = Some b) ->
  each (fire_changed A B)
       (map (fun ie => (entry_key (snd ie), fst ie)) (combine (seq start (length lb)) lb))
  = (map (fun ab => changed (JStr (entry_key (snd ab))) (item (fst ab)) (item (snd ab)))
         (combine la lb), None).
Proof.
  intros Hn. revert la start. induction lb as [|b lb IH]; intros [|a la] start E Ha Hb;
    try discriminate; [reflexivity|].
  simpl in E. injection E as Ek E.
  pose proof (Ha 0 a eq_refl) as Ha0. pose proof (Hb 0 b eq_refl) as Hb0.
  rewrite Nat.add_0_r in Ha0, Hb0.
  pose proof (positions_lookup A start a Hn Ha0) as G. rewrite Ek in G.
  cbn [length seq combine map each fst snd fire_changed].
  unfold JsObj.has. rewrite G. unfold item_at. rewrite Ha0, Hb0.
  rewrite (IH la (S start)); auto.
  - intros j a' Hj. replace (S start + j)%nat with (start + S j)%nat by lia. now apply Ha.
  - intros j b' Hj. replace (S start + j)%nat with (start + S j)%nat by lia. now apply Hb.
Qed.

(** X7: two snapshots with the same unique keys in the same order, the keys
    being ordinary property names, give no [addedAt], [removed] or
    [movedTo]: [diffArray] calls [changed] once per entry, in the order in
    which the properties of [posNew] are visited, with the key as a string,
    then the OLD item, then the new item, whether or not the two items
    differ. *)
Theorem same_keys_only_changed (A B : list Entry) :
  NoDup (map entry_key A) ->
  map entry_key A = map entry_key B ->
  ordinary_keys A ->
  exists cs,
    diffArray A B = (cs, None)
    /\ Permutation cs
         (map (fun ab => changed (JStr (entry_key (snd ab))) (item (fst ab)) (item (snd ab)))
              (combine A B)).
Proof.
  intros Hn E _. eexists. split; [|apply Permutation_refl].
  unfold diffArray.
  rewrite diff_same_keys by (rewrite !map_map; exact E).
  rewrite positions_unique by now rewrite <- E.
  rewrite (each_fire_changed_same A B A B 0 Hn E); auto.
Qed.

(** * No native event is forwarded twice *)

Lemma forwarded_at_most_once (c : nat) (ev : NativeEv) (hs : list Handle) :
  (forall i j h h', nth_error hs i = Some h -> nth_error hs j = Some h' ->
                    h_stopped h = false -> h_stopped h' = false -> i = j) ->
  (length (flat_map (fun h => if (h_cursor h =? c)%nat && negb (h_stopped h)
                              then native_callbacks (h_initial h) ev else []) hs)
   <= 1)%nat.
Proof.
  induction hs as [|h hs IH]; intros H; simpl; [lia|].
  destruct (h_stopped h) eqn:Hst.
  - rewrite andb_false_r. simpl. apply IH.
    intros i j a b Hi Hj Ha Hb. specialize (H (S i) (S j) a b Hi Hj Ha Hb). lia.
  - rewrite (deliver_stopped c ev hs).
    + rewrite app_nil_r.
      destruct ((h_cursor h =? c)%nat && negb false); simpl; [|lia].
      destruct ev; simpl; try lia. destruct (negb (h_initial h)); simpl; lia.
    + intros i h' Hi. destruct (h_stopped h') eqn:Hst'; auto.
      specialize (H 0 (S i) h h' eq_refl Hi Hst Hst'). discriminate.
Qed.

Section AtMostOnce.

Variable Random_id : nat -> string.

(** X16: in a session that starts with no observe handle, whatever runs and
    events have happened and whichever cursor an event belongs to, one native
    event makes at most one callback call: the session never has two handles
    delivering at once. *)
Theorem native_event_forwarded_at_most_once
        (seq : JsVal) (ts : list Trigger) (w : World)
        (c : nat) (ds : list Doc) (ev : NativeEv) :
  handles w = [] ->
  let r := observe Random_id seq w in
  let w' := snd (fst (steps Random_id ts (world r) (session r))) in
  let s' := snd (steps Random_id ts (world r) (session r)) in
  (length (calls (step Random_id (Native c ds ev) w' s')) <= 1)%nat.
Proof.
  intros Hw r w' s'.
  assert (Inv : one_active w' s').
  { subst w' s' r. now apply session_one_active. }
  simpl. unfold deliver. simpl. apply forwarded_at_most_once.
  intros i j h h' Hi Hj Hsi Hsj.
  pose proof (Inv i h Hi Hsi) as Ei. pose proof (Inv j h' Hj Hsj) as Ej. congruence.
Qed.

End AtMostOnce.

(** * The further properties at concrete inputs *)

Lemma sample_id_injective (a b : nat) : sample_id a = sample_id b -> a = b.
Proof.
  unfold sample_id. intros H. injection H as H.
  assert (Hn : forall n, Nat.to_uint n <> Decimal.Nil).
  { intros n E. pose proof (Unsigned.of_to n) as Hof. rewrite E in Hof.
    simpl in Hof. subst n. discriminate E. }
  apply Unsigned.to_uint_inj.
  pose proof (NilZero.usu _ (Hn a)) as Ua. pose proof (NilZero.usu _ (Hn b)) as Ub.
  rewrite H in Ua. congruence.
Qed.

Lemma sample_old_unique : NoDup (map entry_key sample_old).
Proof. repeat constructor; simpl; intuition discriminate. Qed.

Lemma positions_lookup_unique_witness :
  JsObj.get "B" (positions sample_old) = Some 1
  /\ item_at sample_old (JsObj.get "B" (positions sample_old)) = Ok (1, JNum 2).
Proof.
  apply (positions_lookup_unique sample_old 1 (mkEntry (JStr "B") (JNum 2))).
  - exact sample_old_unique.
  - reflexivity.
  - reflexivity.
Defined.

Lemma positions_last_wins_witness :
  JsObj.get "C" (positions sample_old) = None <-> has_entry "C" sample_old = false.
Proof.
  apply (positions_last_wins "C" sample_old). reflexivity.
Defined.

Lemma changed_once_per_common_key_witness :
  count (is_changed "A") (fst (diffArray sample_old sample_new)) = 1.
Proof.
  apply (changed_once_per_common_key sample_old sample_new "A"); repeat constructor.
Defined.

Lemma diffArray_first_snapshot_witness :
  exists cs, diffArray [] sample_new = (cs, None) /\ length cs = 2.
Proof.
  destruct (diffArray_first_snapshot sample_new) as (cs & E & F).
  - repeat constructor; simpl; intuition discriminate.
  - repeat constructor.
  - exists cs. split; [exact E|].
    apply Forall2_length in F. simpl in F. now rewrite <- F.
Defined.

Lemma keyless_list_gets_unique_keys_witness :
  exists arr,
    entries_of_array sample_id 0 [JStr "x"; JStr "y"] = (Ok arr, 2)
    /\ NoDup (map entry_key arr).
Proof.
  destruct (keyless_list_gets_unique_keys sample_id [JStr "x"; JStr "y"] 0)
    as (arr & E & _ & _ & Hn).
  - exact sample_id_injective.
  - repeat constructor.
  - exists arr. split; [exact E|exact Hn].
Defined.

Lemma unrecognized_run_is_invisible_witness :
  autorun_body sample_id (JArray [])
    (world (autorun_body sample_id (JNum 3) sample_world initial_session))
    (session (autorun_body sample_id (JNum 3) sample_world initial_session))
  = autorun_body sample_id (JArray []) sample_world initial_session.
Proof.
  apply (unrecognized_run_is_invisible sample_id (JNum 3) (JArray []) sample_world initial_session).
  - reflexivity.
  - intros elems. discriminate.
  - intros c. discriminate.
Defined.

Lemma same_cursor_run_is_invisible_witness :
  lastSeqArray
    (session (autorun_body sample_id (JCursor 0) sample_world
                (mkSession (JCursor 0) None (Some []) false)))
  = None.
Proof.
  apply (same_cursor_run_is_invisible sample_id 0 JNull sample_world
           (mkSession (JCursor 0) None (Some []) false)).
  reflexivity.
Defined.

Lemma falsy_run_removes_everything_witness :
  autorun_body sample_id JNull sample_world (mkSession (JArray []) None (Some sample_old) false)
  = mkRun [removed (JStr "A") (JNum 1); removed (JStr "B") (JNum 2)] None sample_world
          (mkSession JNull None (Some []) false).
Proof.
  apply (falsy_run_removes_everything sample_id JNull sample_world
           (mkSession (JArray []) None (Some sample_old) false) sample_old).
  - reflexivity.
  - reflexivity.
  - exact sample_old_unique.
Defined.

Lemma null_element_throws_witness :
  thrown (autorun_body sample_id (JArray [JStr "x"; JNull]) sample_world initial_session)
  = Some TypeError.
Proof.
  apply (null_element_throws sample_id [JStr "x"; JNull] JNull sample_world initial_session).
  - right. now left.
  - now left.
Defined.

Lemma keyless_list_is_replaced_witness :
  let r0 := observe sample_id (JArray [JStr "x"; JStr "y"]) sample_world in
  map kind (calls (step sample_id (Invalidate (JArray [JStr "x"; JStr "y"]))
                        (world r0) (session r0)))
  = [KRemoved; KRemoved; KAddedAt; KAddedAt].
Proof.
  apply (keyless_list_is_replaced sample_id [JStr "x"; JStr "y"] sample_world).
  - exact sample_id_injective.
  - repeat constructor.
Defined.

Lemma random_ids_drawn_witness :
  random_calls (world (autorun_body sample_id
                         (JArray [JStr "x"; JObject [("_id", JStr "k")]; JNum 0])
                         sample_world initial_session))
  = 2.
Proof.
  apply (random_ids_drawn sample_id
           (JArray [JStr "x"; JObject [("_id", JStr "k")]; JNum 0])
           sample_world initial_session).
  intros elems [= <-]. repeat constructor; discriminate.
Defined.

Lemma sample_one_active : one_active sample_world initial_session.
Proof. intros [|i] h H; discriminate. Qed.


Lemma attached_cursor_is_forwarded_once_witness :
  deliver 0 (NRemoved doc_b)
          (world (step sample_id (Invalidate (JCursor 0)) sample_world initial_session))
  = [removed (JStr "b") (JObject doc_b)].
Proof.
  apply (attached_cursor_is_forwarded_once sample_id 0 sample_world initial_session).
  - exact sample_one_active.
  - reflexivity.
  - reflexivity.
Defined.

Lemma cursor_then_falsy_removes_current_documents_witness :
  calls (autorun_body sample_id JNull sample_world
           (mkSession (JCursor 0) None (Some []) false))
  = [removed (JStr "a") (JObject doc_a); removed (JStr "b") (JObject doc_b)].
Proof.
  apply (cursor_then_falsy_removes_current_documents sample_id JNull 0 sample_world
           (mkSession (JCursor 0) None (Some []) false)).
  - reflexivity.
  - reflexivity.
  - repeat constructor; simpl; intuition discriminate.
Defined.

Lemma attach_calls_are_the_diff_witness :
  calls (autorun_body sample_id (JCursor 0) sample_world initial_session)
  = fst (diffArray [] (entries_of_docs [doc_a; doc_b])).
Proof.
  apply (attach_calls_are_the_diff sample_id 0 sample_world initial_session).
  reflexivity.
Defined.

Lemma same_keys_only_changed_witness :
  exists cs,
    diffArray sample_old sample_new = (cs, None)
    /\ Permutation cs
         [changed (JStr "A") (JNum 1) (JNum 10); changed (JStr "B") (JNum 2) (JNum 20)].
Proof.
  apply (same_keys_only_changed sample_old sample_new).
  - exact sample_old_unique.
  - reflexivity.
  - repeat constructor.
Defined.

Lemma native_event_forwarded_at_most_once_witness :
  let r := observe sample_id (JCursor 0) sample_world in
  (length (calls (step sample_id (Native 0 [doc_a] (NRemoved doc_b))
                       (snd (fst (steps sample_id [Invalidate (JArray [])] (world r) (session r))))
                       (snd (steps sample_id [Invalidate (JArray [])] (world r) (session r)))))
   <= 1)%nat.
Proof.
  apply (native_event_forwarded_at_most_once sample_id (JCursor 0)
           [Invalidate (JArray [])] sample_world 0 [doc_a] (NRemoved doc_b)).
  reflexivity.
Defined.
